(** * hf_addr2line: extraction of hard-fault addresses from a firmware log

    A shallow embedding of [hf_addr2line.py].  The script reads a log,
    scans it with one regular expression, de-duplicates the addresses it
    finds and asks [arm-none-eabi-addr2line] about each of them.

    Python's [str] is a sequence of Unicode code points; it is modelled
    as a list of code points in [N].  Python's [int] is modelled as [Z]. *)

From Stdlib Require Import ZArith Ascii String.
From stdpp Require Import base list gmap sets pretty.

Local Open Scope N_scope.

(** ** Python strings *)

Abbreviation pystr := (list N).

(** A string literal of the source. *)
Definition lit (s : string) : pystr := N_of_ascii <$> list_ascii_of_string s.
Arguments lit : simpl never.

Module Py.

(** [str.isspace] on one code point, which is also what [\s] means in a
    [str] pattern of [re] and what [str.strip()] removes: the ASCII
    controls 9-13 and 28-31, the space, and the Unicode separators. *)
Definition isspace (c : N) : bool :=
  ((9 <=? c) && (c <=? 13)) || ((28 <=? c) && (c <=? 32))
  || (c =? 0x85) || (c =? 0xA0) || (c =? 0x1680)
  || ((0x2000 <=? c) && (c <=? 0x200A))
  || (c =? 0x2028) || (c =? 0x2029) || (c =? 0x202F)
  || (c =? 0x205F) || (c =? 0x3000).

(** The character class [[0-9a-fA-F]]. *)
Definition ishex (c : N) : bool :=
  ((48 <=? c) && (c <=? 57)) || ((97 <=? c) && (c <=? 102))
  || ((65 <=? c) && (c <=? 70)).

(** Value of one base-16 digit, as [int(_, 16)] reads it. *)
Definition hex_digit (c : N) : option Z :=
  if (48 <=? c) && (c <=? 57) then Some (Z.of_N (c - 48))
  else if (97 <=? c) && (c <=? 102) then Some (Z.of_N (c - 87))
  else if (65 <=? c) && (c <=? 70) then Some (Z.of_N (c - 55))
  else None.

Fixpoint int16_digits (acc : Z) (s : pystr) : option Z :=
  match s with
  | [] => Some acc
  | c :: s' =>
      match hex_digit c with
      | Some d => int16_digits (16 * acc + d)%Z s'
      | None => None
      end
  end.

(** [int(s, 16)] for [s] a non-empty run of ASCII hexadecimal digits,
    the only strings the script passes to it.  [None] is the
    [ValueError] Python raises on the empty string and on a character
    that is no digit (signs, prefixes, underscores and surrounding
    blanks, which Python also reads, never reach this call). *)
Definition int16 (s : pystr) : option Z :=
  match s with
  | [] => None
  | _ => int16_digits 0 s
  end.

(** [str.strip()]. *)
Fixpoint lstrip (s : pystr) : pystr :=
  match s with
  | [] => []
  | c :: s' => if isspace c then lstrip s' else s
  end.

Definition rstrip (s : pystr) : pystr := reverse (lstrip (reverse s)).

Definition strip (s : pystr) : pystr := rstrip (lstrip s).

(** Upper-case digit for a value below 16. *)
Definition upper_hex_digit (d : Z) : N :=
  if (d <? 10)%Z then Z.to_N d + 48 else Z.to_N d + 55.

(** The [w] low-order base-16 digits of [z], most significant first. *)
Fixpoint hex_digits (w : nat) (z : Z) : pystr :=
  match w with
  | O => []
  | S w' => hex_digits w' (z / 16) ++ [upper_hex_digit (z mod 16)]
  end.

(** Number of base-16 digits of a non-negative integer (1 for 0). *)
Definition hex_len (z : Z) : nat := S (Z.to_nat (Z.log2 z / 4)).

(** [format(z, 'X')] for [0 <= z]. *)
Definition format_X (z : Z) : pystr := hex_digits (hex_len z) z.

Definition zfill (w : nat) (s : pystr) : pystr :=
  replicate (w - length s)%nat 48 ++ s.

(** [format(z, '08X')]: zero padding between the sign and the digits,
    to a total width of 8. *)
Definition format_08X (z : Z) : pystr :=
  if (z <? 0)%Z then 45 :: zfill 7 (format_X (- z)) else zfill 8 (format_X z).

(** [str(n)] for a length. *)
Definition str_nat (n : nat) : pystr := lit (pretty n).

End Py.

(** ** The regular expression *)

Module Re.

(** The fragment of [re] syntax the script's pattern is written in: a
    run of literal characters, [c+] for a character class [c] (greedy,
    backtracking), and a capturing group [(c{n})]. *)
Inductive item :=
| Lit (s : pystr)
| Plus (cls : N → bool)
| Group (cls : N → bool) (n : nat).

Fixpoint strip_prefix (p s : pystr) : option pystr :=
  match p, s with
  | [], _ => Some s
  | a :: p', b :: s' => if a =? b then strip_prefix p' s' else None
  | _ :: _, [] => None
  end.

(** Exactly [n] characters of class [cls]. *)
Fixpoint take_class (cls : N → bool) (n : nat) (s : pystr)
  : option (pystr * pystr) :=
  match n, s with
  | O, _ => Some ([], s)
  | S n', c :: s' =>
      if cls c then
        match take_class cls n' s' with
        | Some (g, r) => Some (c :: g, r)
        | None => None
        end
      else None
  | S _, [] => None
  end.

(** [cls+] followed by the rest of the pattern [k]: the longest run
    first, then shorter ones, down to a single character. *)
Fixpoint plus_greedy {R} (cls : N → bool) (k : pystr → option R)
    (s : pystr) : option R :=
  match s with
  | [] => None
  | c :: s' =>
      if cls c then
        match plus_greedy cls k s' with
        | Some r => Some r
        | None => k s'
        end
      else None
  end.

(** A match of the items at the start of [s]: the captured groups and
    the text left after the match. *)
Fixpoint match_here (items : list item) (s : pystr)
  : option (list pystr * pystr) :=
  match items with
  | [] => Some ([], s)
  | Lit l :: items' =>
      match strip_prefix l s with
      | Some s' => match_here items' s'
      | None => None
      end
  | Plus cls :: items' => plus_greedy cls (match_here items') s
  | Group cls n :: items' =>
      match take_class cls n s with
      | Some (g, s') =>
          match match_here items' s' with
          | Some (gs, r) => Some (g :: gs, r)
          | None => None
          end
      | None => None
      end
  end.

(** [finditer]: the matches from left to right; the search resumes
    where the previous match ended.  [skip] counts the characters of
    the current match still to pass over.  (For a pattern that cannot
    match the empty string, which [pattern_nonempty] shows of the
    script's pattern.) *)
Fixpoint finditer_skip (items : list item) (skip : nat) (s : pystr)
  : list (list pystr) :=
  match s with
  | [] => []
  | _ :: s' =>
      match skip with
      | S k => finditer_skip items k s'
      | O =>
          match match_here items s with
          | Some (gs, r) =>
              gs :: finditer_skip items (length s - length r - 1) s'
          | None => finditer_skip items 0 s'
          end
      end
  end.

Definition finditer (items : list item) (s : pystr) : list (list pystr) :=
  finditer_skip items 0 s.

End Re.

(** [re.compile(r'HF_ADDR\s+PC=0x([0-9a-fA-F]{8})\s+LR=0x([0-9a-fA-F]{8})')] *)
Definition pattern : list Re.item :=
  [ Re.Lit (lit "HF_ADDR"); Re.Plus Py.isspace;
    Re.Lit (lit "PC=0x"); Re.Group Py.ishex 8; Re.Plus Py.isspace;
    Re.Lit (lit "LR=0x"); Re.Group Py.ishex 8 ].

(** ** Effects

    What the script does to the outside world is recorded as a trace of
    events; a computation yields a value or an uncaught exception. *)

Inductive event :=
| EIsFile (path : pystr)          (* [Path.is_file] looks the path up *)
| ERead (path : pystr)            (* [Path.read_text] opens and reads *)
| EExec (cmd : list pystr)        (* a child process is started *)
| EStdout (s : pystr)             (* text written to [sys.stdout] *)
| EStderr (s : pystr).            (* text written to [sys.stderr] *)

Inductive exn :=
| CalledProcessError (returncode : Z) (output : pystr)
| OSError
| ValueError.

Definition M (A : Type) : Type := (A + exn) * list event.

#[local] Instance M_ret : MRet M := λ A a, (inl a, []).
#[local] Instance M_bind : MBind M := λ A B f m,
  match m with
  | (inl a, t) => let '(r, t') := f a in (r, t ++ t')
  | (inr e, t) => (inr e, t)
  end.

Definition raise {A} (e : exn) : M A := (inr e, []).
Definition emit (ev : event) : M unit := (inl (), [ev]).

(** [try: m  except subprocess.CalledProcessError as e: ...]: the one
    exception class the script catches; every other one propagates. *)
Definition try_CalledProcessError {A} (m : M A) : M (A + Z * pystr) :=
  match m with
  | (inl a, t) => (inl (inl a), t)
  | (inr (CalledProcessError rc out), t) => (inl (inr (rc, out)), t)
  | (inr e, t) => (inr e, t)
  end.

Fixpoint for_each {A} (l : list A) (body : A → M unit) : M unit :=
  match l with
  | [] => mret ()
  | x :: l' => body x;; for_each l' body
  end.

Definition outcome {A} (m : M A) : A + exn := m.1.
Definition trace {A} (m : M A) : list event := m.2.

Definition stdout_of (t : list event) : pystr :=
  concat (omap (λ ev, match ev with EStdout s => Some s | _ => None end) t).
Definition stderr_of (t : list event) : pystr :=
  concat (omap (λ ev, match ev with EStderr s => Some s | _ => None end) t).

(** ** The environment of one run *)

(** How a child process ends: with an exit status and the text it wrote
    to its standard output and standard error, or not started at all.
    The text is the output as [text=True] decodes it; output that cannot
    be decoded, on which [check_output] raises [UnicodeDecodeError], is
    not among the cases. *)
Inductive process :=
| Exited (status : Z) (output : pystr)
| LaunchFailed.

Record env := {
  str_path : pystr → pystr;          (* [str(Path(arg))] *)
  is_file : pystr → bool;            (* is [Path(arg)] a regular file *)
  read_text : pystr → pystr;         (* the text of a file that is read,
                                        decoded with [errors='ignore'] *)
  run_process : list pystr → process;
}.

(** ** The pure stages of the script *)

(** Lines 28-32: the loop over [pattern.finditer(log_text)].  [None]
    is a [ValueError], from unpacking [m.groups()] or from [int]. *)
Fixpoint extract_loop (addrs : list Z) (ms : list (list pystr))
  : option (list Z) :=
  match ms with
  | [] => Some addrs
  | m :: ms' =>
      match m with
      | [pc_hex; lr_hex] =>
          match Py.int16 pc_hex with
          | Some pc =>
              match Py.int16 lr_hex with
              | Some lr => extract_loop ((addrs ++ [pc]) ++ [lr]) ms'
              | None => None
              end
          | None => None
          end
      | _ => None
      end
  end.

Definition extract_addrs (log_text : pystr) : option (list Z) :=
  extract_loop [] (Re.finditer pattern log_text).

(** Lines 35-40: de-duplication with the [seen] set. *)
Fixpoint dedup_loop (seen : gset Z) (unique_addrs : list Z)
    (addrs : list Z) : list Z :=
  match addrs with
  | [] => unique_addrs
  | a :: addrs' =>
      if decide (a ∉ seen)
      then dedup_loop ({[a]} ∪ seen) (unique_addrs ++ [a]) addrs'
      else dedup_loop seen unique_addrs addrs'
  end.

Definition dedup (addrs : list Z) : list Z := dedup_loop ∅ [] addrs.

(** The AddressList of a log text: extraction, then de-duplication. *)
Definition address_list (log_text : pystr) : option (list Z) :=
  dedup <$> extract_addrs log_text.

(** ** The script in its environment *)

Section script.
Context (E : env).

Definition nl : pystr := [10].

(** [print(s)] and [print(s, file=sys.stderr)] *)
Definition print (s : pystr) : M unit := emit (EStdout (s ++ nl)).
Definition print_stderr (s : pystr) : M unit := emit (EStderr (s ++ nl)).

Definition path_is_file (p : pystr) : M bool :=
  emit (EIsFile p);; mret (is_file E p).

(** [Path.read_text(errors='ignore')] on a file that can be read.  (On a
    file that cannot, Python raises [OSError]; the environment has no
    such file, so what is proved of a run that reads the log is proved
    of the runs in which the read succeeds.) *)
Definition path_read_text (p : pystr) : M pystr :=
  emit (ERead p);; mret (read_text E p).

(** [subprocess.check_output(cmd, text=True, stderr=subprocess.STDOUT)],
    for output that decodes. *)
Definition check_output (cmd : list pystr) : M pystr :=
  emit (EExec cmd);;
  match run_process E cmd with
  | Exited status output =>
      if (status =? 0)%Z then mret output
      else raise (CalledProcessError status output)
  | LaunchFailed => raise OSError
  end.

Definition addr2line_cmd (elf_path : pystr) (addr : Z) : list pystr :=
  [ lit "arm-none-eabi-addr2line"; lit "-f"; lit "-C"; lit "-e";
    str_path E elf_path; lit "0x" ++ Py.format_08X addr ].

(** Lines 48-61. *)
Definition addr2line (elf_path : pystr) (addr : Z) : M pystr :=
  r ← try_CalledProcessError (check_output (addr2line_cmd elf_path addr));
  match r with
  | inr (_, output) =>
      mret (lit "<addr2line error: " ++ Py.strip output ++ lit ">")
  | inl out => mret (Py.strip out)
  end.

(** Lines 64-66: the body of the report loop. *)
Definition report_one (elf_path : pystr) (addr : Z) : M unit :=
  print (lit "0x" ++ Py.format_08X addr ++ lit ":");;
  r ← addr2line elf_path addr;
  print r;;
  print [].

Definition header (n : nat) : pystr :=
  lit "Found " ++ Py.str_nat n
    ++ lit " unique addresses. Resolving with addr2line..." ++ nl.

(** [main()], with [sys.argv = argv0 :: args] (the interpreter always
    puts the script's name first). *)
Definition main (argv0 : pystr) (args : list pystr) : M Z :=
  match args with
  | [elf_path; log_path] =>
      elf_ok ← path_is_file elf_path;
      if negb elf_ok then
        print_stderr (lit "ELF not found: " ++ str_path E elf_path);;
        mret 1%Z
      else
        log_ok ← path_is_file log_path;
        if negb log_ok then
          print_stderr (lit "Log not found: " ++ str_path E log_path);;
          mret 1%Z
        else
          log_text ← path_read_text log_path;
          match extract_addrs log_text with
          | None => raise ValueError
          | Some addrs =>
              let unique_addrs := dedup addrs in
              match unique_addrs with
              | [] =>
                  print_stderr (lit "No HF_ADDR lines found in log.");;
                  mret 0%Z
              | _ :: _ =>
                  print (header (length unique_addrs));;
                  for_each unique_addrs (report_one elf_path);;
                  mret 0%Z
              end
          end
  | _ =>
      print_stderr
        (lit "Usage: " ++ argv0 ++ lit " <firmware.elf> <log-file>");;
      mret 1%Z
  end.

End script.

(** ** The specification's words

    Definitions that follow the specification, to compare the script's
    loops with. *)

(** A hexadecimal digit stands for its position in the digit alphabet,
    in either case. *)
Definition spec_digit (c : N) : Z :=
  match list_find (λ d, d = c) (lit "0123456789abcdef") with
  | Some (i, _) => Z.of_nat i
  | None =>
      match list_find (λ d, d = c) (lit "0123456789ABCDEF") with
      | Some (i, _) => Z.of_nat i
      | None => 0%Z
      end
  end.

(** Positional notation in base 16. *)
Fixpoint spec_base16 (s : pystr) : Z :=
  match s with
  | [] => 0%Z
  | c :: s' => (spec_digit c * 16 ^ Z.of_nat (length s') + spec_base16 s')%Z
  end.

(** "For each occurrence, parse both hex fields as base-16 integers and
    append PC then LR (in that order) to a working sequence." *)
Definition spec_working_sequence (ms : list (list pystr)) : list Z :=
  ms ≫= λ m, match m with
             | [pc_hex; lr_hex] => [spec_base16 pc_hex; spec_base16 lr_hex]
             | _ => []
             end.

(** "Retaining only the first occurrence of each distinct value,
    preserving the relative order of those first occurrences." *)
Fixpoint spec_first_occurrences (l : list Z) : list Z :=
  match l with
  | [] => []
  | x :: l' => x :: filter (λ y, y ≠ x) (spec_first_occurrences l')
  end.

(** A place of the text where the pattern's words are met: the token, a
    run of blanks, the PC field, a run of blanks, the LR field. *)
Definition occurrence (pc_hex lr_hex : pystr) (s rest : pystr) : Prop :=
  ∃ ws1 ws2 : pystr,
    s = lit "HF_ADDR" ++ ws1 ++ lit "PC=0x" ++ pc_hex ++ ws2
          ++ lit "LR=0x" ++ lr_hex ++ rest
    ∧ ws1 ≠ [] ∧ Forall (λ c, Py.isspace c = true) ws1
    ∧ ws2 ≠ [] ∧ Forall (λ c, Py.isspace c = true) ws2
    ∧ length pc_hex = 8%nat ∧ Forall (λ c, Py.ishex c = true) pc_hex
    ∧ length lr_hex = 8%nat ∧ Forall (λ c, Py.ishex c = true) lr_hex.

(** An 8-digit hexadecimal field, as a capture group holds it. *)
Definition hex_field (s : pystr) : Prop :=
  length s = 8%nat ∧ Forall (λ c, Py.ishex c = true) s.

(** The same spelling in capital letters (ASCII only). *)
Definition ascii_upper (c : N) : N :=
  if (97 <=? c) && (c <=? 122) then c - 32 else c.

(** "On success (zero exit status): result is the trimmed captured text.
    On failure (non-zero exit status): result is a bracketed error marker
    string containing the trimmed captured output." *)
Definition spec_resolution (p : process) : pystr :=
  match p with
  | Exited status output =>
      if (status =? 0)%Z then Py.strip output
      else lit "<addr2line error: " ++ Py.strip output ++ lit ">"
  | LaunchFailed => []
  end.

(** The report of one address: the address line, the resolver's run, the
    result text and the blank line. *)
Definition spec_report_entry (E : env) (elf_path : pystr) (addr : Z)
  : list event :=
  let cmd := addr2line_cmd E elf_path addr in
  [ EStdout (lit "0x" ++ Py.format_08X addr ++ lit ":" ++ nl);
    EExec cmd;
    EStdout (spec_resolution (run_process E cmd) ++ nl);
    EStdout nl ].

(** The resolver can be started for each of the addresses (the script
    assumes it installed). *)
Definition resolver_runs (E : env) (elf_path : pystr) (addrs : list Z) : Prop :=
  ∀ a, a ∈ addrs → run_process E (addr2line_cmd E elf_path a) ≠ LaunchFailed.

(** The three conditions under which the script refuses to work. *)
Definition invalid_invocation (E : env) (args : list pystr) : Prop :=
  match args with
  | [elf_path; log_path] =>
      is_file E elf_path = false ∨ is_file E log_path = false
  | _ => True
  end.

(** ** Sample runs *)

(** A log with one crash record between two ordinary lines. *)
Definition demo_log : pystr :=
  lit "boot ok" ++ nl ++ lit "HF_ADDR PC=0x08001234 LR=0x08000F00" ++ nl
    ++ lit "rebooting" ++ nl.

(** A resolver that fails on [0x08001234] and knows every other address. *)
Definition demo_resolver (cmd : list pystr) : process :=
  if decide (last cmd = Some (lit "0x08001234"))
  then Exited 1 (lit "addr2line: bad address" ++ nl)
  else Exited 0 (lit "main" ++ nl ++ lit "main.c:12" ++ nl).

(** A world with the given regular files, in which every log reads as
    [log_text]. *)
Definition demo_env (files : list pystr) (log_text : pystr) : env :=
  {| str_path := id;
     is_file := λ p, bool_decide (p ∈ files);
     read_text := λ _, log_text;
     run_process := demo_resolver |}.

(** A crash record whose LR field runs on for a ninth digit. *)
Definition long_lr_log : pystr := lit "HF_ADDR PC=0x08001234 LR=0x08000F001".

(** A crash record broken over three lines. *)
Definition multiline_log : pystr :=
  lit "HF_ADDR" ++ [10] ++ lit "PC=0x08001234" ++ [13; 10]
    ++ lit "LR=0x08000F00" ++ [10].

(** The same address spelled in capitals and in small letters. *)
Definition two_spellings_log : pystr :=
  lit "HF_ADDR PC=0xDEADBEEF LR=0xDEADBEEF" ++ nl
    ++ lit "HF_ADDR PC=0xdeadbeef LR=0xdeadbeef" ++ nl.

(** A place where the token and both field names stand, separated by
    blanks, and where one of the two hexadecimal runs is longer than 8. *)
Definition long_field_occurrence (s : pystr) : Prop :=
  ∃ ws1 pc_hex ws2 lr_hex post : pystr,
    s = lit "HF_ADDR" ++ ws1 ++ lit "PC=0x" ++ pc_hex ++ ws2
          ++ lit "LR=0x" ++ lr_hex ++ post
    ∧ ws1 ≠ [] ∧ Forall (λ c, Py.isspace c = true) ws1
    ∧ ws2 ≠ [] ∧ Forall (λ c, Py.isspace c = true) ws2
    ∧ Forall (λ c, Py.ishex c = true) pc_hex
    ∧ Forall (λ c, Py.ishex c = true) lr_hex
    ∧ (∀ c post', post = c :: post' → Py.ishex c = false)
    ∧ (8 < length pc_hex ∨ 8 < length lr_hex)%nat.

(** ** Reading a trace *)

(** The command lines of the processes a trace started, in order. *)
Definition exec_commands (t : list event) : list (list pystr) :=
  omap (λ ev, match ev with EExec cmd => Some cmd | _ => None end) t.

(** The files a trace read, in order. *)
Definition files_read (t : list event) : list pystr :=
  omap (λ ev, match ev with ERead p => Some p | _ => None end) t.

(** What is left of an address's report when the resolver cannot be
    started: the address line and the attempt. *)
Definition spec_aborted_entry (E : env) (elf_path : pystr) (addr : Z)
  : list event :=
  [ EStdout (lit "0x" ++ Py.format_08X addr ++ lit ":" ++ nl);
    EExec (addr2line_cmd E elf_path addr) ].

(** A world like [demo_env] in which the resolver is not installed. *)
Definition offline_env (files : list pystr) (log_text : pystr) : env :=
  {| str_path := id;
     is_file := λ p, bool_decide (p ∈ files);
     read_text := λ _, log_text;
     run_process := λ _, LaunchFailed |}.

(** The runs of the script, case by case. *)
Inductive run_case (E : env) (argv0 : pystr) (args : list pystr) : Prop :=
| RunUsage :
    length args ≠ 2%nat →
    main E argv0 args
      = (inl 1%Z,
         [EStderr (lit "Usage: " ++ argv0 ++ lit " <firmware.elf> <log-file>"
                   ++ nl)]) →
    run_case E argv0 args
| RunElfMissing elf_path log_path :
    args = [elf_path; log_path] → is_file E elf_path = false →
    main E argv0 args
      = (inl 1%Z,
         [EIsFile elf_path;
          EStderr (lit "ELF not found: " ++ str_path E elf_path ++ nl)]) →
    run_case E argv0 args
| RunLogMissing elf_path log_path :
    args = [elf_path; log_path] →
    is_file E elf_path = true → is_file E log_path = false →
    main E argv0 args
      = (inl 1%Z,
         [EIsFile elf_path; EIsFile log_path;
          EStderr (lit "Log not found: " ++ str_path E log_path ++ nl)]) →
    run_case E argv0 args
| RunNoAddresses elf_path log_path :
    args = [elf_path; log_path] →
    is_file E elf_path = true → is_file E log_path = true →
    address_list (read_text E log_path) = Some [] →
    main E argv0 args
      = (inl 0%Z,
         [EIsFile elf_path; EIsFile log_path; ERead log_path;
          EStderr (lit "No HF_ADDR lines found in log." ++ nl)]) →
    run_case E argv0 args
| RunReport elf_path log_path addrs :
    args = [elf_path; log_path] →
    is_file E elf_path = true → is_file E log_path = true →
    address_list (read_text E log_path) = Some addrs → addrs ≠ [] →
    resolver_runs E elf_path addrs →
    main E argv0 args
      = (inl 0%Z,
         [EIsFile elf_path; EIsFile log_path; ERead log_path;
          EStdout (header (length addrs) ++ nl)]
         ++ concat (spec_report_entry E elf_path <$> addrs)) →
    run_case E argv0 args
| RunAborted elf_path log_path pre A post :
    args = [elf_path; log_path] →
    is_file E elf_path = true → is_file E log_path = true →
    address_list (read_text E log_path) = Some (pre ++ A :: post) →
    resolver_runs E elf_path pre →
    run_process E (addr2line_cmd E elf_path A) = LaunchFailed →
    main E argv0 args
      = (inr OSError,
         [EIsFile elf_path; EIsFile log_path; ERead log_path;
          EStdout (header (length (pre ++ A :: post)) ++ nl)]
         ++ concat (spec_report_entry E elf_path <$> pre)
         ++ spec_aborted_entry E elf_path A) →
    run_case E argv0 args.

(** ** The exit status of the process *)



(** * Properties *)

(** ** Characters and numbers *)

Lemma isspace_not_hex c : Py.isspace c = true → Py.ishex c = false.
Proof.
  unfold Py.isspace, Py.ishex. intros H.
  repeat (apply orb_true_iff in H as [H|H]);
    repeat (apply andb_true_iff in H as [? ?]);
    repeat match goal with
           | H : (_ <=? _) = true |- _ => apply N.leb_le in H
           | H : (_ =? _) = true |- _ => apply N.eqb_eq in H
           end;
    repeat (apply orb_false_iff; split); apply andb_false_iff;
    rewrite !N.leb_gt; lia.
Qed.

Lemma ishex_cases c :
  Py.ishex c = true ↔ 48 ≤ c ≤ 57 ∨ 97 ≤ c ≤ 102 ∨ 65 ≤ c ≤ 70.
Proof.
  unfold Py.ishex. rewrite !orb_true_iff, !andb_true_iff, !N.leb_le. tauto.
Qed.

Lemma hex_digit_spec c :
  Py.ishex c = true →
  Py.hex_digit c = Some (spec_digit c) ∧ (0 ≤ spec_digit c < 16)%Z.
Proof.
  intros H. apply ishex_cases in H.
  assert (Hc : c ∈ lit "0123456789abcdefABCDEF").
  { assert (48 ≤ c ≤ 57 ∨ 97 ≤ c ≤ 102 ∨ 65 ≤ c ≤ 70) as Hr by done.
    clear H. vm_compute lit.
    assert (c = 48 ∨ c = 49 ∨ c = 50 ∨ c = 51 ∨ c = 52 ∨ c = 53 ∨ c = 54
            ∨ c = 55 ∨ c = 56 ∨ c = 57 ∨ c = 97 ∨ c = 98 ∨ c = 99
            ∨ c = 100 ∨ c = 101 ∨ c = 102 ∨ c = 65 ∨ c = 66 ∨ c = 67
            ∨ c = 68 ∨ c = 69 ∨ c = 70) as Hd by lia.
    rewrite !elem_of_cons. tauto. }
  vm_compute lit in Hc.
  repeat (apply elem_of_cons in Hc as [->|Hc]; [by vm_compute|]).
  by apply elem_of_nil in Hc.
Qed.

Lemma hex_digit_None c : Py.ishex c = false → Py.hex_digit c = None.
Proof.
  unfold Py.ishex, Py.hex_digit. rewrite !orb_false_iff.
  by intros [[-> ->] ->].
Qed.

Lemma int16_digits_spec s acc :
  Forall (λ c, Py.ishex c = true) s →
  Py.int16_digits acc s
    = Some (acc * 16 ^ Z.of_nat (length s) + spec_base16 s)%Z
  ∧ (0 ≤ spec_base16 s < 16 ^ Z.of_nat (length s))%Z.
Proof.
  intros Hs. revert acc. induction Hs as [|c s Hc _ IH]; intros acc.
  - simpl. split; [f_equal; lia | lia].
  - destruct (hex_digit_spec c Hc) as [Hd Hr].
    destruct (IH (16 * acc + spec_digit c)%Z) as [IH1 IH2].
    cbn [Py.int16_digits spec_base16 length]. rewrite Hd, IH1.
    rewrite Nat2Z.inj_succ, Z.pow_succ_r by lia.
    split; [f_equal; lia | nia].
Qed.

Lemma int16_spec s :
  s ≠ [] → Forall (λ c, Py.ishex c = true) s →
  Py.int16 s = Some (spec_base16 s)
  ∧ (0 ≤ spec_base16 s < 16 ^ Z.of_nat (length s))%Z.
Proof.
  intros Hne Hs. destruct (int16_digits_spec s 0 Hs) as [H1 H2].
  split; [|done]. destruct s; [done|]. unfold Py.int16. by rewrite H1.
Qed.

Lemma int16_digits_app s t acc :
  Py.int16_digits acc (s ++ t)
    = Py.int16_digits acc s ≫= λ a, Py.int16_digits a t.
Proof.
  revert acc. induction s as [|c s IH]; intros acc; [done|].
  simpl. destruct (Py.hex_digit c); [apply IH | done].
Qed.

Lemma hex_digit_upper d :
  (0 ≤ d < 16)%Z → Py.hex_digit (Py.upper_hex_digit d) = Some d.
Proof.
  intros Hd.
  assert (d ∈ [0;1;2;3;4;5;6;7;8;9;10;11;12;13;14;15]%Z) as Hin.
  { rewrite !elem_of_cons. lia. }
  repeat (apply elem_of_cons in Hin as [->|Hin]; [done|]).
  by apply elem_of_nil in Hin.
Qed.

Lemma hex_digits_length w z : length (Py.hex_digits w z) = w.
Proof.
  revert z. induction w as [|w IH]; intros z; [done|].
  simpl. rewrite length_app, IH. simpl. lia.
Qed.

Lemma int16_hex_digits w z acc :
  (0 ≤ z)%Z →
  Py.int16_digits acc (Py.hex_digits w z)
    = Some (acc * 16 ^ Z.of_nat w + z mod 16 ^ Z.of_nat w)%Z.
Proof.
  revert z acc. induction w as [|w IH]; intros z acc Hz.
  - simpl. f_equal. rewrite Z.mod_1_r. lia.
  - cbn [Py.hex_digits]. rewrite int16_digits_app, IH by (apply Z.div_pos; lia).
    cbn [mbind option_bind Py.int16_digits].
    rewrite hex_digit_upper by (apply Z.mod_pos_bound; lia).
    f_equal. rewrite Nat2Z.inj_succ, Z.pow_succ_r by lia.
    rewrite (Z.rem_mul_r z 16 (16 ^ Z.of_nat w)) by lia. lia.
Qed.

Lemma hex_len_bound z : (0 ≤ z)%Z → (z < 16 ^ Z.of_nat (Py.hex_len z))%Z.
Proof.
  intros Hz. unfold Py.hex_len.
  assert (0 ≤ Z.log2 z)%Z as Hl by apply Z.log2_nonneg.
  assert (0 ≤ Z.log2 z / 4)%Z as Hq by (apply Z.div_pos; lia).
  rewrite Nat2Z.inj_succ, Z2Nat.id by done.
  change 16%Z with (2 ^ 4)%Z. rewrite <- Z.pow_mul_r by lia.
  destruct (decide (z = 0%Z)) as [->|Hnz]; [by apply Z.pow_pos_nonneg; lia|].
  destruct (Z.log2_spec z) as [_ Hlt]; [lia|].
  eapply Z.lt_le_trans; [exact Hlt|].
  apply Z.pow_le_mono_r; [lia|].
  pose proof (Z.div_mod (Z.log2 z) 4). pose proof (Z.mod_pos_bound (Z.log2 z) 4).
  lia.
Qed.

Lemma int16_digits_zeros k s :
  Py.int16_digits 0 (replicate k 48 ++ s) = Py.int16_digits 0 s.
Proof. induction k as [|k IH]; [done|]. simpl. exact IH. Qed.

Lemma format_X_nonempty z : Py.format_X z ≠ [].
Proof.
  intros H. apply (f_equal length) in H. unfold Py.format_X in H.
  by rewrite hex_digits_length in H.
Qed.

(** Reading back what [format(_, '08X')] wrote, for every non-negative
    integer. *)
Lemma int16_format_08X z : (0 ≤ z)%Z → Py.int16 (Py.format_08X z) = Some z.
Proof.
  intros Hz. unfold Py.format_08X.
  destruct (Z.ltb_spec z 0) as [?|_]; [lia|].
  unfold Py.int16, Py.zfill.
  destruct (replicate _ _ ++ _) as [|c s] eqn:Heq.
  { apply app_eq_nil in Heq as [_ Heq]. by apply format_X_nonempty in Heq. }
  rewrite <- Heq, int16_digits_zeros. unfold Py.format_X.
  rewrite int16_hex_digits by done. f_equal.
  rewrite Z.mod_small; [lia|]. split; [done|]. by apply hex_len_bound.
Qed.

Lemma hex_len_32 z : (0 ≤ z < 2 ^ 32)%Z → (Py.hex_len z ≤ 8)%nat.
Proof.
  intros [Hz Hlt]. unfold Py.hex_len.
  assert (Z.log2 z < 32)%Z as Hl.
  { destruct (decide (z = 0%Z)) as [->|?]; [done|].
    apply Z.log2_lt_pow2; lia. }
  assert (0 ≤ Z.log2 z)%Z by apply Z.log2_nonneg.
  assert (Z.log2 z / 4 < 8)%Z by (apply Z.div_lt_upper_bound; lia).
  assert (0 ≤ Z.log2 z / 4)%Z by (apply Z.div_pos; lia). lia.
Qed.

Lemma format_08X_length z :
  (0 ≤ z < 2 ^ 32)%Z → length (Py.format_08X z) = 8%nat.
Proof.
  intros Hz. pose proof (hex_len_32 z Hz). unfold Py.format_08X.
  destruct (Z.ltb_spec z 0) as [?|_]; [lia|].
  unfold Py.zfill, Py.format_X.
  rewrite length_app, length_replicate, hex_digits_length. lia.
Qed.

Lemma upper_hex_digit_in d :
  (0 ≤ d < 16)%Z → Py.upper_hex_digit d ∈ lit "0123456789ABCDEF".
Proof.
  intros Hd.
  assert (d ∈ [0;1;2;3;4;5;6;7;8;9;10;11;12;13;14;15]%Z) as Hin.
  { rewrite !elem_of_cons. lia. }
  repeat (apply elem_of_cons in Hin as [->|Hin];
          [by apply (bool_decide_unpack _); vm_compute|]).
  by apply elem_of_nil in Hin.
Qed.

Lemma format_08X_upper z :
  (0 ≤ z)%Z → Forall (λ c, c ∈ lit "0123456789ABCDEF") (Py.format_08X z).
Proof.
  intros Hz. unfold Py.format_08X.
  destruct (Z.ltb_spec z 0) as [?|_]; [lia|].
  unfold Py.zfill, Py.format_X. apply Forall_app. split.
  - apply Forall_replicate. by apply (bool_decide_unpack _); vm_compute.
  - generalize (Py.hex_len z). intros w. revert z Hz.
    induction w as [|w IH]; intros z Hz; [constructor|].
    simpl. apply Forall_app. split; [apply IH, Z.div_pos; lia|].
    constructor; [|constructor].
    apply upper_hex_digit_in, Z.mod_pos_bound. lia.
Qed.

(** ** The matcher *)

Lemma strip_prefix_Some p s r : Re.strip_prefix p s = Some r ↔ s = p ++ r.
Proof.
  revert s. induction p as [|a p IH]; intros s; simpl.
  - split; [by intros [= ->] | by intros ->].
  - destruct s as [|b s]; [by split|].
    destruct (N.eqb_spec a b) as [->|Hne].
    + rewrite IH. split; [by intros -> | by intros [= ->]].
    + split; [done | by intros [= -> _]].
Qed.

Lemma take_class_complete cls g r :
  Forall (λ c, cls c = true) g →
  Re.take_class cls (length g) (g ++ r) = Some (g, r).
Proof.
  induction 1 as [|c g Hc _ IH]; [done|]. simpl. by rewrite Hc, IH.
Qed.

Lemma take_class_Some cls n s g r :
  Re.take_class cls n s = Some (g, r)
  ↔ s = g ++ r ∧ length g = n ∧ Forall (λ c, cls c = true) g.
Proof.
  split.
  - revert s g. induction n as [|n IH]; intros s g; simpl.
    { intros [= <- <-]. by repeat split. }
    destruct s as [|c s]; [done|]. destruct (cls c) eqn:Hc; [|done].
    destruct (Re.take_class cls n s) as [[g' r']|] eqn:Ht; [|done].
    intros [= <- <-]. apply IH in Ht as (-> & <- & Hg').
    repeat split; by try constructor.
  - intros (-> & <- & Hg). by apply take_class_complete.
Qed.

Lemma plus_greedy_Some {R} cls (k : pystr → option R) s x :
  Re.plus_greedy cls k s = Some x →
  ∃ ws r, s = ws ++ r ∧ ws ≠ [] ∧ Forall (λ c, cls c = true) ws ∧ k r = Some x.
Proof.
  induction s as [|c s IH]; simpl; [done|].
  destruct (cls c) eqn:Hc; [|done].
  destruct (Re.plus_greedy cls k s) as [y|] eqn:Hp.
  - intros [= ->]. destruct (IH eq_refl) as (ws & r & -> & _ & Hws & Hk).
    exists (c :: ws), r. repeat split; by try constructor.
  - intros Hk. exists [c], s. repeat split; by try repeat constructor.
Qed.

(** When the rest of the pattern cannot start on a character of the
    class, [cls+] can only stop at the end of the run. *)
Lemma plus_greedy_run {R} cls (k : pystr → option R) ws r :
  ws ≠ [] → Forall (λ c, cls c = true) ws →
  (∀ c t, cls c = true → k (c :: t) = None) →
  (∀ c t, r = c :: t → cls c = false) →
  Re.plus_greedy cls k (ws ++ r) = k r.
Proof.
  intros Hne Hws Hk Hr. induction Hws as [|c ws Hc Hws IH]; [done|].
  simpl. rewrite Hc. destruct ws as [|c' ws].
  - simpl. destruct r as [|c' r]; simpl.
    + by destruct (k []).
    + rewrite (Hr c' r eq_refl). by destruct (k (c' :: r)).
  - rewrite IH by done. destruct (k r) eqn:Hkr; [done|].
    apply Forall_cons in Hws as [Hc' _]. by apply Hk.
Qed.

Lemma match_here_Lit l items s x :
  Re.match_here (Re.Lit l :: items) s = Some x
  ↔ ∃ s', s = l ++ s' ∧ Re.match_here items s' = Some x.
Proof.
  simpl. destruct (Re.strip_prefix l s) as [s'|] eqn:Hp.
  - apply strip_prefix_Some in Hp as ->. split; [by exists s'|].
    by intros (s'' & ->%app_inv_head & ?).
  - split; [done|]. intros (s' & -> & _).
    by rewrite (proj2 (strip_prefix_Some l _ s') eq_refl) in Hp.
Qed.

Lemma match_here_Plus_eq cls items s :
  Re.match_here (Re.Plus cls :: items) s
    = Re.plus_greedy cls (Re.match_here items) s.
Proof. done. Qed.

Lemma match_here_Plus cls items s x :
  Re.match_here (Re.Plus cls :: items) s = Some x →
  ∃ ws s', s = ws ++ s' ∧ ws ≠ [] ∧ Forall (λ c, cls c = true) ws
    ∧ Re.match_here items s' = Some x.
Proof. apply (plus_greedy_Some cls (Re.match_here items)). Qed.

Lemma match_here_Group cls n items s gs r :
  Re.match_here (Re.Group cls n :: items) s = Some (gs, r)
  ↔ ∃ g gs' s', s = g ++ s' ∧ length g = n ∧ Forall (λ c, cls c = true) g
      ∧ gs = g :: gs' ∧ Re.match_here items s' = Some (gs', r).
Proof.
  simpl. split.
  - destruct (Re.take_class cls n s) as [[g s']|] eqn:Ht; [|done].
    apply take_class_Some in Ht as (-> & Hl & Hg).
    destruct (Re.match_here items s') as [[gs' r']|] eqn:Hm; [|done].
    intros [= <- <-]. by exists g, gs', s'.
  - intros (g & gs' & s' & -> & Hl & Hg & -> & Hm).
    rewrite (proj2 (take_class_Some cls n _ g s')) by done. by rewrite Hm.
Qed.

Lemma match_here_suffix items s gs r :
  Re.match_here items s = Some (gs, r) → ∃ c, s = c ++ r.
Proof.
  revert s gs. induction items as [|[l|cls|cls n] items IH]; intros s gs.
  - intros [= _ <-]. by exists [].
  - intros (s' & -> & Hm)%match_here_Lit.
    destruct (IH _ _ Hm) as [c ->]. exists (l ++ c). by rewrite <- app_assoc.
  - intros (ws & s' & -> & _ & _ & Hm)%match_here_Plus.
    destruct (IH _ _ Hm) as [c ->]. exists (ws ++ c). by rewrite <- app_assoc.
  - intros (g & gs' & s' & -> & _ & _ & _ & Hm)%match_here_Group.
    destruct (IH _ _ Hm) as [c ->]. exists (g ++ c). by rewrite <- app_assoc.
Qed.

(** What the script's pattern matches at the start of a text. *)
Lemma match_here_pattern_sound s gs r :
  Re.match_here pattern s = Some (gs, r) →
  ∃ pc_hex lr_hex, gs = [pc_hex; lr_hex] ∧ occurrence pc_hex lr_hex s r.
Proof.
  unfold pattern.
  intros (s1 & -> & H)%match_here_Lit.
  apply match_here_Plus in H as (ws1 & s2 & -> & Hne1 & Hws1 & H).
  apply match_here_Lit in H as (s3 & -> & H).
  apply match_here_Group in H as (pc & gs1 & s4 & -> & Hl1 & Hpc & -> & H).
  apply match_here_Plus in H as (ws2 & s5 & -> & Hne2 & Hws2 & H).
  apply match_here_Lit in H as (s6 & -> & H).
  apply match_here_Group in H as (lr & gs2 & s7 & -> & Hl2 & Hlr & -> & H).
  injection H as <- <-.
  exists pc, lr. split; [done|]. by exists ws1, ws2.
Qed.

Lemma match_here_Lit_space l items c t :
  (∃ a l', l = a :: l' ∧ Py.isspace a = false) → Py.isspace c = true →
  Re.match_here (Re.Lit l :: items) (c :: t) = None.
Proof.
  intros (a & l' & -> & Ha) Hc. simpl.
  destruct (N.eqb_spec a c) as [->|_]; [congruence | done].
Qed.

Lemma match_here_pattern_complete pc_hex lr_hex s r :
  occurrence pc_hex lr_hex s r →
  Re.match_here pattern s = Some ([pc_hex; lr_hex], r).
Proof.
  intros (ws1 & ws2 & -> & Hne1 & Hws1 & Hne2 & Hws2 & Hl1 & Hpc & Hl2 & Hlr).
  unfold pattern. apply match_here_Lit. eexists. split; [done|].
  rewrite match_here_Plus_eq, plus_greedy_run; [|done|done| |by intros c t [= <- _]].
  2:{ intros c t Hc. apply match_here_Lit_space; [|done]. by eexists _, _. }
  apply match_here_Lit. eexists. split; [done|].
  apply match_here_Group. eexists pc_hex, _, _.
  split; [done|]. split; [done|]. split; [done|]. split; [done|].
  rewrite match_here_Plus_eq, plus_greedy_run; [|done|done| |by intros c t [= <- _]].
  2:{ intros c t Hc. apply match_here_Lit_space; [|done]. by eexists _, _. }
  apply match_here_Lit. eexists. split; [done|].
  apply match_here_Group. by eexists lr_hex, [], r.
Qed.

Lemma run_unique (cls : N → bool) ws1 ws2 a1 a2 t1 t2 :
  Forall (λ c, cls c = true) ws1 → Forall (λ c, cls c = true) ws2 →
  cls a1 = false → cls a2 = false →
  ws1 ++ a1 :: t1 = ws2 ++ a2 :: t2 → ws1 = ws2 ∧ t1 = t2.
Proof.
  intros H1. revert ws2. induction H1 as [|c ws1 Hc _ IH]; intros ws2 H2 Ha1 Ha2.
  - destruct H2 as [|c ws2 Hc _]; simpl; [by intros [= _ ->]|].
    intros [= -> _]. congruence.
  - destruct H2 as [|c' ws2 Hc' H2]; simpl.
    + intros [= -> _]. congruence.
    + intros [= -> Heq]. destruct (IH ws2 H2 Ha1 Ha2 Heq) as [-> ->]. done.
Qed.

(** A PC field of more than 8 hexadecimal digits: no match there. *)
Lemma pattern_rejects_long_pc ws h post :
  Forall (λ c, Py.isspace c = true) ws → Forall (λ c, Py.ishex c = true) h →
  (8 < length h)%nat →
  Re.match_here pattern (lit "HF_ADDR" ++ ws ++ lit "PC=0x" ++ h ++ post)
    = None.
Proof.
  intros Hws Hh Hlen.
  destruct (Re.match_here pattern _) as [[gs r]|] eqn:Hm; [exfalso|done].
  apply match_here_pattern_sound in Hm as (pc & lr & _ & Hocc).
  destruct Hocc as (ws1 & ws2 & Heq & _ & Hws1 & Hne2 & Hws2 & Hl1 & _).
  apply app_inv_head in Heq.
  apply (run_unique Py.isspace) in Heq as [<- Heq]; [|done..].
  injection Heq as Heq. apply app_eq_inv in Heq.
  destruct Heq as [(k & -> & Heq)|(k & -> & _)].
  - rewrite length_app in Hlen. destruct k as [|c k]; [simpl in Hlen; lia|].
    destruct ws2 as [|w ws2]; [done|]. injection Heq as -> _.
    apply Forall_app in Hh as [_ [Hc _]%Forall_cons].
    apply Forall_cons in Hws2 as [Hw%isspace_not_hex _]. congruence.
  - rewrite length_app in Hl1. lia.
Qed.

(** ** [finditer] *)

Lemma finditer_skip_sound items k s m :
  m ∈ Re.finditer_skip items k s →
  ∃ pre post r, s = pre ++ post ∧ Re.match_here items post = Some (m, r).
Proof.
  revert k. induction s as [|c s IH]; intros k; simpl.
  { by intros ?%elem_of_nil. }
  assert (∀ k', m ∈ Re.finditer_skip items k' s →
    ∃ pre post r, c :: s = pre ++ post
                  ∧ Re.match_here items post = Some (m, r)) as Hrec.
  { intros k' (pre & post & r & -> & Hm)%IH. by exists (c :: pre), post, r. }
  destruct k as [|k]; [|by apply Hrec].
  destruct (Re.match_here items (c :: s)) as [[gs r]|] eqn:Hm; [|by apply Hrec].
  intros [->|Hin]%elem_of_cons; [|by eapply Hrec].
  by exists [], (c :: s), r.
Qed.

Lemma finditer_skip_drop items k s :
  Re.finditer_skip items k s = Re.finditer items (drop k s).
Proof.
  revert k. induction s as [|c s IH]; intros [|k]; try done.
  simpl. by rewrite IH.
Qed.

Lemma pattern_nonempty s gs r :
  Re.match_here pattern s = Some (gs, r) → (length r < length s)%nat.
Proof.
  intros (pc & lr & _ & Hocc)%match_here_pattern_sound.
  destruct Hocc as (ws1 & ws2 & -> & _). rewrite !length_app. simpl. lia.
Qed.

(** [finditer] as a search: the leftmost match, then the matches of the
    text after it. *)
Lemma finditer_pattern_unfold s :
  Re.finditer pattern s =
    match s with
    | [] => []
    | _ :: s' =>
        match Re.match_here pattern s with
        | Some (gs, r) => gs :: Re.finditer pattern r
        | None => Re.finditer pattern s'
        end
    end.
Proof.
  destruct s as [|c s]; [done|]. unfold Re.finditer at 1.
  cbn [Re.finditer_skip].
  destruct (Re.match_here pattern (c :: s)) as [[gs r]|] eqn:Hm; [|done].
  f_equal. rewrite finditer_skip_drop. f_equal.
  pose proof (pattern_nonempty _ _ _ Hm) as Hlt.
  destruct (match_here_suffix _ _ _ _ Hm) as [[|c' x] Hx].
  { simpl in Hx. subst r. lia. }
  injection Hx as <- ->. rewrite length_cons, length_app.
  replace (S (length x + length r) - length r - 1)%nat with (length x) by lia.
  by rewrite drop_app_length.
Qed.

(** Every match [finditer] yields sits at some place of the text where
    the pattern's words are met. *)
Lemma finditer_pattern_sound s m :
  m ∈ Re.finditer pattern s →
  ∃ pre pc_hex lr_hex post rest,
    m = [pc_hex; lr_hex] ∧ s = pre ++ post ∧ occurrence pc_hex lr_hex post rest.
Proof.
  intros (pre & post & r & -> & Hm)%finditer_skip_sound.
  apply match_here_pattern_sound in Hm as (pc & lr & -> & Hocc).
  by exists pre, pc, lr, post, r.
Qed.

(** ** Extraction *)

Lemma hex_field_int16 s :
  hex_field s →
  Py.int16 s = Some (spec_base16 s) ∧ (0 ≤ spec_base16 s < 2 ^ 32)%Z.
Proof.
  intros [Hl Hs]. destruct (int16_spec s) as [H1 H2]; [by destruct s|done|].
  rewrite Hl in H2. done.
Qed.

Lemma extract_loop_spec ms addrs :
  Forall (λ m, ∃ pc_hex lr_hex,
            m = [pc_hex; lr_hex] ∧ hex_field pc_hex ∧ hex_field lr_hex) ms →
  extract_loop addrs ms = Some (addrs ++ spec_working_sequence ms).
Proof.
  intros Hms. revert addrs.
  induction Hms as [|m ms (pc & lr & -> & Hpc & Hlr) _ IH]; intros addrs.
  - simpl. by rewrite app_nil_r.
  - cbn [extract_loop].
    destruct (hex_field_int16 _ Hpc) as [-> _].
    destruct (hex_field_int16 _ Hlr) as [-> _].
    rewrite IH. unfold spec_working_sequence. cbn [mbind list_bind].
    by rewrite <- !app_assoc.
Qed.

Lemma finditer_pattern_fields s :
  Forall (λ m, ∃ pc_hex lr_hex,
            m = [pc_hex; lr_hex] ∧ hex_field pc_hex ∧ hex_field lr_hex)
         (Re.finditer pattern s).
Proof.
  apply Forall_forall. intros m Hm.
  apply finditer_pattern_sound in Hm
    as (pre & pc & lr & post & rest & -> & _ & Hocc).
  destruct Hocc as (ws1 & ws2 & _ & _ & _ & _ & _ & ? & ? & ? & ?).
  by exists pc, lr.
Qed.

(** The extraction loop never raises: both fields of every match are
    read as the numbers they spell. *)
Lemma extract_addrs_spec log_text :
  extract_addrs log_text
    = Some (spec_working_sequence (Re.finditer pattern log_text)).
Proof.
  unfold extract_addrs. by rewrite extract_loop_spec by apply finditer_pattern_fields.
Qed.

Lemma working_sequence_32bit log_text a :
  a ∈ spec_working_sequence (Re.finditer pattern log_text) →
  (0 ≤ a < 2 ^ 32)%Z.
Proof.
  unfold spec_working_sequence. intros (m & Ha & Hm)%list_elem_of_bind.
  pose proof (finditer_pattern_fields log_text) as Hf.
  rewrite Forall_forall in Hf.
  destruct (Hf m Hm) as (pc & lr & -> & Hpc & Hlr).
  apply elem_of_cons in Ha as [->|Ha]; [by apply hex_field_int16|].
  apply list_elem_of_singleton in Ha as ->. by apply hex_field_int16.
Qed.

(** ** De-duplication *)

Lemma filter_all (P : Z → Prop) `{!∀ x, Decision (P x)} (l : list Z) :
  Forall P l → filter P l = l.
Proof.
  induction 1 as [|x l Hx _ IH]; [done|].
  by rewrite filter_cons_True, IH.
Qed.

Lemma first_occurrences_elem_of l x : x ∈ spec_first_occurrences l ↔ x ∈ l.
Proof.
  induction l as [|a l IH]; [done|]. simpl.
  rewrite !elem_of_cons, list_elem_of_filter, IH.
  destruct (decide (x = a)); tauto.
Qed.

Lemma first_occurrences_NoDup l : NoDup (spec_first_occurrences l).
Proof.
  induction l as [|a l IH]; simpl; [constructor|].
  apply NoDup_cons. split; [|by apply NoDup_filter].
  rewrite list_elem_of_filter. by intros [? _].
Qed.

Lemma first_occurrences_sublist l : spec_first_occurrences l `sublist_of` l.
Proof.
  induction l as [|a l IH]; simpl; [done|].
  apply sublist_skip. etrans; [apply sublist_filter | done].
Qed.

Lemma first_occurrences_id l : NoDup l → spec_first_occurrences l = l.
Proof.
  induction 1 as [|a l Ha _ IH]; [done|]. simpl. rewrite IH. f_equal.
  apply filter_all, Forall_forall. intros y Hy ->. done.
Qed.

Lemma first_occurrences_app l1 l2 :
  spec_first_occurrences (l1 ++ l2)
    = spec_first_occurrences l1
        ++ filter (λ y, y ∉ l1) (spec_first_occurrences l2).
Proof.
  induction l1 as [|a l1 IH]; simpl.
  { symmetry. apply filter_all, Forall_forall. intros y _. apply not_elem_of_nil. }
  f_equal. rewrite IH, filter_app. f_equal.
  rewrite list_filter_filter. apply list_filter_iff.
  intros y. rewrite not_elem_of_cons. tauto.
Qed.

(** The loop with its [seen] set, started anywhere. *)
Lemma dedup_loop_spec seen unique_addrs addrs :
  seen = list_to_set unique_addrs →
  dedup_loop seen unique_addrs addrs
    = unique_addrs
        ++ filter (λ y, y ∉ unique_addrs) (spec_first_occurrences addrs).
Proof.
  revert seen unique_addrs.
  induction addrs as [|a addrs IH]; intros seen acc Hseen; simpl.
  { by rewrite app_nil_r. }
  assert (a ∉ seen ↔ a ∉ acc) as Hin
    by (subst seen; by rewrite elem_of_list_to_set).
  destruct (decide (a ∉ seen)) as [Ha|Ha].
  - rewrite IH
      by (subst seen; rewrite list_to_set_app_L; cbn;
          by rewrite (right_id_L ∅ (∪)), (comm_L (∪))).
    rewrite filter_cons_True by tauto. rewrite <- app_assoc. simpl.
    do 2 f_equal. rewrite list_filter_filter. apply list_filter_iff.
    intros y. rewrite not_elem_of_app, list_elem_of_singleton. tauto.
  - rewrite IH by done. rewrite filter_cons_False by tauto. f_equal.
    rewrite list_filter_filter. apply list_filter_iff.
    intros y. split; [|tauto]. intros Hy. split; [done|]. intros ->. tauto.
Qed.

Lemma dedup_spec addrs : dedup addrs = spec_first_occurrences addrs.
Proof.
  unfold dedup. rewrite dedup_loop_spec by done. simpl.
  apply filter_all, Forall_forall. intros y _. apply not_elem_of_nil.
Qed.

Lemma address_list_spec log_text :
  address_list log_text
    = Some (spec_first_occurrences
              (spec_working_sequence (Re.finditer pattern log_text))).
Proof.
  unfold address_list. rewrite extract_addrs_spec. simpl. by rewrite dedup_spec.
Qed.

(** ** Runs of the script *)

Lemma report_one_runs E elf_path a :
  run_process E (addr2line_cmd E elf_path a) ≠ LaunchFailed →
  report_one E elf_path a = (inl (), spec_report_entry E elf_path a).
Proof.
  intros Hrun. unfold report_one, addr2line, check_output, spec_report_entry.
  destruct (run_process E (addr2line_cmd E elf_path a))
    as [status output|] eqn:Hp; [|done].
  cbn. destruct (status =? 0)%Z; cbn; by rewrite <- !app_assoc.
Qed.

Lemma report_one_launch_failed E elf_path a :
  run_process E (addr2line_cmd E elf_path a) = LaunchFailed →
  outcome (report_one E elf_path a) = inr OSError.
Proof.
  intros Hrun. unfold report_one, addr2line, check_output. by rewrite Hrun.
Qed.

Lemma for_each_report E elf_path addrs :
  resolver_runs E elf_path addrs →
  for_each addrs (report_one E elf_path)
    = (inl (), concat (spec_report_entry E elf_path <$> addrs)).
Proof.
  induction addrs as [|a addrs IH]; intros Hrun; [done|].
  cbn [for_each]. rewrite report_one_runs by (apply Hrun; left).
  rewrite IH by (intros b Hb; apply Hrun; by right). done.
Qed.

Lemma main_usage E argv0 args :
  length args ≠ 2%nat →
  main E argv0 args
    = (inl 1%Z,
       [EStderr (lit "Usage: " ++ argv0 ++ lit " <firmware.elf> <log-file>"
                 ++ nl)]).
Proof.
  intros Hlen. unfold main.
  destruct args as [|a1 [|a2 [|a3 args]]]; try done.
  all: cbn; by rewrite <- ?app_assoc.
Qed.

Lemma main_elf_missing E argv0 elf_path log_path :
  is_file E elf_path = false →
  main E argv0 [elf_path; log_path]
    = (inl 1%Z,
       [EIsFile elf_path;
        EStderr (lit "ELF not found: " ++ str_path E elf_path ++ nl)]).
Proof. intros Helf. unfold main, path_is_file. cbn. by rewrite Helf. Qed.

Lemma main_log_missing E argv0 elf_path log_path :
  is_file E elf_path = true → is_file E log_path = false →
  main E argv0 [elf_path; log_path]
    = (inl 1%Z,
       [EIsFile elf_path; EIsFile log_path;
        EStderr (lit "Log not found: " ++ str_path E log_path ++ nl)]).
Proof.
  intros Helf Hlog. unfold main, path_is_file. cbn. rewrite Helf. cbn.
  by rewrite Hlog.
Qed.

Lemma main_no_addresses E argv0 elf_path log_path :
  is_file E elf_path = true → is_file E log_path = true →
  address_list (read_text E log_path) = Some [] →
  main E argv0 [elf_path; log_path]
    = (inl 0%Z,
       [EIsFile elf_path; EIsFile log_path; ERead log_path;
        EStderr (lit "No HF_ADDR lines found in log." ++ nl)]).
Proof.
  intros Helf Hlog Haddrs. unfold main, path_is_file, path_read_text. cbn.
  rewrite Helf. cbn. rewrite Hlog. cbn.
  unfold address_list in Haddrs.
  destruct (extract_addrs (read_text E log_path)) as [addrs|]; [|done].
  injection Haddrs as ->. done.
Qed.

Lemma main_report E argv0 elf_path log_path addrs :
  is_file E elf_path = true → is_file E log_path = true →
  address_list (read_text E log_path) = Some addrs → addrs ≠ [] →
  resolver_runs E elf_path addrs →
  main E argv0 [elf_path; log_path]
    = (inl 0%Z,
       [EIsFile elf_path; EIsFile log_path; ERead log_path;
        EStdout (header (length addrs) ++ nl)]
       ++ concat (spec_report_entry E elf_path <$> addrs)).
Proof.
  intros Helf Hlog Haddrs Hne Hrun. unfold main, path_is_file, path_read_text.
  cbn. rewrite Helf. cbn. rewrite Hlog. cbn.
  unfold address_list in Haddrs.
  destruct (extract_addrs (read_text E log_path)) as [addrs'|]; [|done].
  injection Haddrs as Haddrs. rewrite Haddrs.
  destruct addrs as [|a addrs]; [done|].
  rewrite for_each_report by done. cbn. by rewrite app_nil_r.
Qed.

Lemma stdout_of_app t1 t2 : stdout_of (t1 ++ t2) = stdout_of t1 ++ stdout_of t2.
Proof. unfold stdout_of. by rewrite omap_app, concat_app. Qed.

Lemma stdout_of_entries E elf_path addrs :
  stdout_of (concat (spec_report_entry E elf_path <$> addrs))
    = concat ((λ a, stdout_of (spec_report_entry E elf_path a)) <$> addrs).
Proof.
  induction addrs as [|a addrs IH]; [done|].
  cbn [fmap list_fmap concat]. by rewrite stdout_of_app, IH.
Qed.

Lemma stderr_of_app t1 t2 : stderr_of (t1 ++ t2) = stderr_of t1 ++ stderr_of t2.
Proof. unfold stderr_of. by rewrite omap_app, concat_app. Qed.

Lemma main_valid_outcome E argv0 elf_path log_path :
  is_file E elf_path = true → is_file E log_path = true →
  outcome (main E argv0 [elf_path; log_path]) = inl 0%Z
  ∨ ∃ e, outcome (main E argv0 [elf_path; log_path]) = inr e.
Proof.
  intros Helf Hlog. unfold main, path_is_file, path_read_text.
  cbn. rewrite Helf. cbn. rewrite Hlog. cbn.
  destruct (extract_addrs (read_text E log_path)) as [addrs|]; [|right; by eexists].
  destruct (dedup addrs) as [|a unique_addrs]; [by left|].
  destruct (for_each _ _) as [[[]|e] t]; [by left | right; by eexists].
Qed.

Lemma hex_digit_ascii_upper c : Py.hex_digit (ascii_upper c) = Py.hex_digit c.
Proof.
  unfold ascii_upper.
  destruct (N.leb_spec 97 c), (N.leb_spec c 122); cbn [andb]; [|done..].
  unfold Py.hex_digit.
  repeat match goal with
         | |- context [?a <=? ?b] => destruct (N.leb_spec a b)
         end; cbn [andb]; try done; try lia; f_equal; lia.
Qed.

Lemma int16_digits_ascii_upper s acc :
  Py.int16_digits acc (ascii_upper <$> s) = Py.int16_digits acc s.
Proof.
  revert acc. induction s as [|c s IH]; intros acc; [done|].
  cbn [fmap list_fmap Py.int16_digits]. rewrite hex_digit_ascii_upper.
  destruct (Py.hex_digit c); [apply IH | done].
Qed.

Lemma int16_ascii_upper s : Py.int16 (ascii_upper <$> s) = Py.int16 s.
Proof.
  destruct s as [|c s]; [done|].
  apply (int16_digits_ascii_upper (c :: s)).
Qed.

Lemma address_list_member_32bit log_text addrs a :
  address_list log_text = Some addrs → a ∈ addrs → (0 ≤ a < 2 ^ 32)%Z.
Proof.
  rewrite address_list_spec. intros [= <-] Ha.
  by apply first_occurrences_elem_of, working_sequence_32bit in Ha.
Qed.

Lemma elem_of_concat_2 {A} (x : A) (l : list A) (ls : list (list A)) :
  x ∈ l → l ∈ ls → x ∈ concat ls.
Proof.
  intros Hx. induction ls as [|l' ls IH]; [by intros ?%elem_of_nil|].
  intros [->|Hl]%elem_of_cons; simpl; apply elem_of_app; [by left|].
  right. by apply IH.
Qed.

Ltac norm_app :=
  unfold nl; repeat first [rewrite <- app_assoc | progress cbn [app]].

Lemma stdout_of_entry E elf_path a :
  stdout_of (spec_report_entry E elf_path a)
    = lit "0x" ++ Py.format_08X a ++ lit ":" ++ nl
        ++ spec_resolution (run_process E (addr2line_cmd E elf_path a))
        ++ nl ++ nl.
Proof.
  unfold spec_report_entry, stdout_of. cbn [omap list_omap concat].
  rewrite app_nil_r. by norm_app.
Qed.

Lemma addr2line_runs E elf_path a :
  run_process E (addr2line_cmd E elf_path a) ≠ LaunchFailed →
  addr2line E elf_path a
    = (inl (spec_resolution (run_process E (addr2line_cmd E elf_path a))),
       [EExec (addr2line_cmd E elf_path a)]).
Proof.
  intros Hrun. unfold addr2line, check_output.
  destruct (run_process E (addr2line_cmd E elf_path a))
    as [status output|]; [|done].
  cbn. by destruct (status =? 0)%Z.
Qed.

(** * The claims *)

(** ** Extraction and de-duplication *)

(** C1. For every log text the script's AddressList is the
    first-occurrence de-duplication of the working sequence that holds,
    for each match of [finditer] in scan order, the PC field read in base
    16 and then the LR field read in base 16.  It has no duplicate; it
    has the values of the working sequence; a value stands after the
    distinct values first seen before it and before those first seen
    after it; and a spelling in capitals reads as the same integer as the
    spelling it comes from. *)
Theorem address_list_first_occurrences (log_text : pystr) :
  let working := spec_working_sequence (Re.finditer pattern log_text) in
  address_list log_text = Some (spec_first_occurrences working)
  ∧ NoDup (spec_first_occurrences working)
  ∧ (∀ a, a ∈ spec_first_occurrences working ↔ a ∈ working)
  ∧ (∀ pre a post, working = pre ++ a :: post → a ∉ pre →
       spec_first_occurrences working
         = spec_first_occurrences pre
             ++ a :: filter (λ y, y ∉ pre ++ [a]) (spec_first_occurrences post))
  ∧ (∀ hex, Py.int16 (ascii_upper <$> hex) = Py.int16 hex).
Proof.
  intros working. split; [apply address_list_spec|].
  split; [apply first_occurrences_NoDup|].
  split; [apply first_occurrences_elem_of|].
  split; [|apply int16_ascii_upper].
  intros pre a post -> Ha.
  rewrite first_occurrences_app. f_equal. cbn [spec_first_occurrences].
  rewrite filter_cons_True by done. f_equal.
  rewrite list_filter_filter. apply list_filter_iff.
  intros y. rewrite not_elem_of_app, list_elem_of_singleton. tauto.
Qed.

(** The specification's example of two spellings of one address. *)
Example two_spellings_one_address :
  address_list two_spellings_log = Some [0xDEADBEEF%Z].
Proof. by vm_compute. Qed.

(** The specification's example of a single crash record. *)
Example single_record_addresses :
  address_list (lit "HF_ADDR PC=0x08001234 LR=0x08000F00")
    = Some [0x08001234%Z; 0x08000F00%Z].
Proof. by vm_compute. Qed.

(** C7. Every address of an AddressList lies in [0, 2^32); written with
    [format(_, '08X')] it takes 8 digits out of [0-9A-F], and reading
    these back in base 16 gives the address again. *)
Theorem addresses_are_32bit (log_text : pystr) (addrs : list Z) (a : Z) :
  address_list log_text = Some addrs → a ∈ addrs →
  (0 ≤ a < 2 ^ 32)%Z
  ∧ length (Py.format_08X a) = 8%nat
  ∧ Forall (λ c, c ∈ lit "0123456789ABCDEF") (Py.format_08X a)
  ∧ Py.int16 (Py.format_08X a) = Some a.
Proof.
  intros Haddrs Ha.
  pose proof (address_list_member_32bit _ _ _ Haddrs Ha) as H32.
  split; [done|]. split; [by apply format_08X_length|].
  split; [apply format_08X_upper; lia | apply int16_format_08X; lia].
Qed.

Lemma addresses_are_32bit_witness :
  address_list demo_log = Some [0x08001234%Z; 0x08000F00%Z]
  ∧ (0 ≤ 0x08000F00 < 2 ^ 32)%Z
  ∧ Py.int16 (Py.format_08X 0x08000F00) = Some 0x08000F00%Z.
Proof.
  assert (address_list demo_log = Some [0x08001234%Z; 0x08000F00%Z]) as H
    by (by vm_compute).
  split; [exact H|].
  destruct (addresses_are_32bit demo_log _ 0x08000F00%Z H) as (H1 & _ & _ & H2).
  - apply elem_of_cons. right. apply elem_of_cons. by left.
  - by split.
Defined.

(** C8. The AddressList is a function of the log text alone, and
    de-duplication changes neither an AddressList nor any sequence that
    has been de-duplicated already. *)
Theorem dedup_idempotent :
  (∀ log_text, ∃ addrs,
      address_list log_text = Some addrs
      ∧ (∀ addrs', address_list log_text = Some addrs' → addrs' = addrs)
      ∧ dedup addrs = addrs)
  ∧ (∀ addrs, dedup (dedup addrs) = dedup addrs).
Proof.
  assert (∀ addrs, dedup (dedup addrs) = dedup addrs) as Hidem.
  { intros addrs. rewrite !dedup_spec.
    apply first_occurrences_id, first_occurrences_NoDup. }
  split; [|done]. intros log_text. eexists. split; [apply address_list_spec|].
  split.
  - rewrite address_list_spec. by intros addrs' [= <-].
  - rewrite <- dedup_spec. apply Hidem.
Qed.

(** C9. The blanks of the pattern may be line breaks: a crash record
    whose token, PC field and LR field stand on three lines (ended by
    LF, CR LF and LF) is found, as one match. *)
Theorem match_spans_lines :
  Py.isspace 10 = true ∧ Py.isspace 13 = true
  ∧ Re.finditer pattern multiline_log = [[lit "08001234"; lit "08000F00"]]
  ∧ address_list multiline_log = Some [0x08001234%Z; 0x08000F00%Z].
Proof. by vm_compute. Qed.

(** C3, as the code has it.  [finditer] yields a match only at a place
    where the token is followed by blanks, [PC=0x] and 8 hexadecimal
    digits, blanks, [LR=0x] and 8 hexadecimal digits; the pattern matches
    at the start of a text exactly when the text begins so, whatever
    comes after the 8th LR digit; and where more than 8 hexadecimal
    digits follow [PC=0x] there is no match. *)
Theorem matches_only_at_occurrences (log_text : pystr) :
  (∀ m, m ∈ Re.finditer pattern log_text →
     ∃ pre pc_hex lr_hex post rest,
       m = [pc_hex; lr_hex] ∧ log_text = pre ++ post
       ∧ occurrence pc_hex lr_hex post rest)
  ∧ (∀ gs rest,
       Re.match_here pattern log_text = Some (gs, rest)
       ↔ ∃ pc_hex lr_hex,
           gs = [pc_hex; lr_hex] ∧ occurrence pc_hex lr_hex log_text rest)
  ∧ (∀ ws h post,
       log_text = lit "HF_ADDR" ++ ws ++ lit "PC=0x" ++ h ++ post →
       Forall (λ c, Py.isspace c = true) ws →
       Forall (λ c, Py.ishex c = true) h → (8 < length h)%nat →
       Re.match_here pattern log_text = None).
Proof.
  split; [apply finditer_pattern_sound|]. split.
  - intros gs rest. split; [apply match_here_pattern_sound|].
    intros (pc & lr & -> & Hocc). by apply match_here_pattern_complete.
  - intros ws h post -> Hws Hh Hlen. by apply pattern_rejects_long_pc.
Qed.

(** C3, as stated, fails for the LR field: a record whose LR field has
    nine hexadecimal digits is matched, on the first eight. *)
Lemma long_lr_field_is_matched :
  long_field_occurrence long_lr_log
  ∧ Re.match_here pattern long_lr_log
      = Some ([lit "08001234"; lit "08000F00"], lit "1")
  ∧ Re.finditer pattern long_lr_log = [[lit "08001234"; lit "08000F00"]]
  ∧ address_list long_lr_log = Some [0x08001234%Z; 0x08000F00%Z].
Proof.
  split; [|by vm_compute].
  exists [32], (lit "08001234"), [32], (lit "08000F001"), [].
  split; [by vm_compute|]. split; [done|]. split; [by repeat constructor|].
  split; [done|]. split; [by repeat constructor|].
  split; [by repeat constructor|]. split; [by repeat constructor|].
  split; [done|]. right. vm_compute. lia.
Qed.

(** ** Validation and exit status *)

(** C10. When neither argument names a regular file, the run consists
    of the look-up of the ELF path and the ELF diagnostic on the error
    stream: the exit status is 1, nothing else is written, the log path
    is not even looked up, and no file is read. *)
Theorem elf_checked_before_log (E : env) (argv0 elf_path log_path : pystr) :
  is_file E elf_path = false → is_file E log_path = false →
  let run := main E argv0 [elf_path; log_path] in
  outcome run = inl 1%Z
  ∧ trace run
      = [EIsFile elf_path;
         EStderr (lit "ELF not found: " ++ str_path E elf_path ++ nl)]
  ∧ stderr_of (trace run) = lit "ELF not found: " ++ str_path E elf_path ++ nl
  ∧ stdout_of (trace run) = []
  ∧ (∀ p, ERead p ∉ trace run).
Proof.
  intros Helf _ run. subst run. rewrite main_elf_missing by done.
  split; [done|]. split; [done|]. split; [cbn; by rewrite app_nil_r|].
  split; [done|]. intros p Hp.
  apply elem_of_cons in Hp as [?|Hp]; [done|].
  apply elem_of_cons in Hp as [?|Hp]; [done|]. by apply elem_of_nil in Hp.
Qed.

Lemma elf_checked_before_log_witness :
  let E := demo_env [] demo_log in
  is_file E (lit "fw.elf") = false ∧ is_file E (lit "crash.log") = false
  ∧ main E (lit "hf_addr2line.py") [lit "fw.elf"; lit "crash.log"]
    = (inl 1%Z, [EIsFile (lit "fw.elf");
                 EStderr (lit "ELF not found: fw.elf" ++ nl)]).
Proof.
  intros E. split; [done|]. split; [done|].
  destruct (elf_checked_before_log E (lit "hf_addr2line.py") (lit "fw.elf")
              (lit "crash.log") eq_refl eq_refl) as (Ho & Ht & _).
  destruct (main E _ _) as [o t]. cbn in Ho, Ht. by rewrite Ho, Ht.
Defined.

(** C6. When the AddressList is empty, which is when the log has no
    match, the notice goes to the error stream, nothing goes to standard
    output, no resolver is started, and the exit status is 0. *)
Theorem no_addresses_run (E : env) (argv0 elf_path log_path : pystr) :
  is_file E elf_path = true → is_file E log_path = true →
  address_list (read_text E log_path) = Some [] →
  let run := main E argv0 [elf_path; log_path] in
  Re.finditer pattern (read_text E log_path) = []
  ∧ outcome run = inl 0%Z
  ∧ stderr_of (trace run) = lit "No HF_ADDR lines found in log." ++ nl
  ∧ stdout_of (trace run) = []
  ∧ (∀ cmd, EExec cmd ∉ trace run).
Proof.
  intros Helf Hlog Haddrs run. subst run.
  rewrite main_no_addresses by done. split.
  - rewrite address_list_spec in Haddrs. injection Haddrs as Haddrs.
    pose proof (finditer_pattern_fields (read_text E log_path)) as Hf.
    destruct (Re.finditer pattern (read_text E log_path)) as [|m ms]; [done|].
    apply Forall_cons in Hf as [(pc & lr & -> & _) _]. done.
  - split; [done|]. split; [cbn; by rewrite app_nil_r|]. split; [done|].
    intros cmd Hin. repeat (apply elem_of_cons in Hin as [?|Hin]; [done|]).
    by apply elem_of_nil in Hin.
Qed.

Lemma no_addresses_run_witness :
  let E := demo_env [lit "fw.elf"; lit "crash.log"] (lit "boot ok" ++ nl) in
  let run := main E (lit "hf_addr2line.py") [lit "fw.elf"; lit "crash.log"] in
  address_list (read_text E (lit "crash.log")) = Some []
  ∧ outcome run = inl 0%Z
  ∧ stdout_of (trace run) = [].
Proof.
  intros E run.
  assert (address_list (read_text E (lit "crash.log")) = Some []) as H
    by (by vm_compute).
  split; [exact H|].
  destruct (no_addresses_run E (lit "hf_addr2line.py") (lit "fw.elf")
              (lit "crash.log") eq_refl eq_refl H) as (_ & Ho & _ & Hs & _).
  by split.
Defined.

(** What [main] returns: 1 exactly when the argument count is wrong, the
    ELF path is no regular file or the log path is no regular file.  In
    every other case it returns 0 as soon as the resolver can be started
    for each address, whatever exit status the resolver ends with; when
    the log has no match it returns 0 without any resolver. *)
Theorem exit_status_contract (E : env) (argv0 : pystr) (args : list pystr) :
  (outcome (main E argv0 args) = inl 1%Z ↔ invalid_invocation E args)
  ∧ (∀ elf_path log_path addrs,
       args = [elf_path; log_path] → ¬ invalid_invocation E args →
       address_list (read_text E log_path) = Some addrs →
       resolver_runs E elf_path addrs →
       outcome (main E argv0 args) = inl 0%Z)
  ∧ (∀ elf_path log_path,
       args = [elf_path; log_path] → ¬ invalid_invocation E args →
       Re.finditer pattern (read_text E log_path) = [] →
       outcome (main E argv0 args) = inl 0%Z).
Proof.
  assert (∀ elf_path log_path, ¬ invalid_invocation E [elf_path; log_path] →
    is_file E elf_path = true ∧ is_file E log_path = true) as Hvalid.
  { intros elf_path log_path Hok. cbn in Hok.
    destruct (is_file E elf_path), (is_file E log_path); tauto. }
  assert (∀ elf_path log_path addrs,
    args = [elf_path; log_path] → ¬ invalid_invocation E args →
    address_list (read_text E log_path) = Some addrs →
    resolver_runs E elf_path addrs →
    outcome (main E argv0 args) = inl 0%Z) as Hzero.
  { intros elf_path log_path addrs -> [Helf Hlog]%Hvalid Haddrs Hrun.
    destruct addrs as [|a addrs].
    - by rewrite main_no_addresses.
    - by rewrite (main_report E argv0 elf_path log_path (a :: addrs)). }
  split; [|split; [exact Hzero|]].
  - destruct (decide (length args = 2%nat)) as [Hlen|Hlen].
    + destruct args as [|elf_path [|log_path [|x args]]]; try done. clear Hlen.
      cbn [invalid_invocation].
      destruct (is_file E elf_path) eqn:Helf.
      2:{ rewrite main_elf_missing by done. split; [by left | done]. }
      destruct (is_file E log_path) eqn:Hlog.
      2:{ rewrite main_log_missing by done. split; [by right | done]. }
      split; [|by intros [?|?]]. intros Hone.
      destruct (main_valid_outcome E argv0 elf_path log_path Helf Hlog)
        as [Ho|[e Ho]]; rewrite Ho in Hone; done.
    + rewrite main_usage by done. split; [|done]. intros _.
      destruct args as [|a1 [|a2 [|a3 args]]]; done.
  - intros elf_path log_path Hargs Hok Hnone.
    apply (Hzero elf_path log_path []); try done.
    + by rewrite address_list_spec, Hnone.
    + by intros a ?%elem_of_nil.
Qed.

Lemma exit_status_contract_witness :
  let E := demo_env [lit "fw.elf"; lit "crash.log"] demo_log in
  run_process E (addr2line_cmd E (lit "fw.elf") 0x08001234)
    = Exited 1 (lit "addr2line: bad address" ++ nl)
  ∧ outcome (main E (lit "hf_addr2line.py") [lit "fw.elf"; lit "crash.log"])
    = inl 0%Z.
Proof.
  intros E. split; [by vm_compute|].
  destruct (exit_status_contract E (lit "hf_addr2line.py")
              [lit "fw.elf"; lit "crash.log"]) as (_ & Hzero & _).
  apply (Hzero (lit "fw.elf") (lit "crash.log") [0x08001234%Z; 0x08000F00%Z]).
  - done.
  - cbn. intros [?|?]; done.
  - by vm_compute.
  - intros a Ha. apply elem_of_cons in Ha as [->|Ha]; [by vm_compute|].
    apply elem_of_cons in Ha as [->|Ha]; [by vm_compute|].
    by apply elem_of_nil in Ha.
Defined.

(** ** The report *)

(** C4, as the code has it.  When the AddressList is not empty and the
    resolver can be started for each address, standard output is the
    header line, which gives the number of addresses in the AddressList,
    an empty line, and then for each address in AddressList order the
    line [0x] + 8 capital hexadecimal digits + [:], the address's
    resolution result and an empty line. *)
Theorem report_format (E : env) (argv0 elf_path log_path : pystr)
    (addrs : list Z) :
  is_file E elf_path = true → is_file E log_path = true →
  address_list (read_text E log_path) = Some addrs → addrs ≠ [] →
  resolver_runs E elf_path addrs →
  stdout_of (trace (main E argv0 [elf_path; log_path]))
    = lit "Found " ++ Py.str_nat (length addrs)
        ++ lit " unique addresses. Resolving with addr2line..." ++ nl ++ nl
        ++ concat ((λ a,
             lit "0x" ++ Py.format_08X a ++ lit ":" ++ nl
               ++ spec_resolution (run_process E (addr2line_cmd E elf_path a))
               ++ nl ++ nl) <$> addrs)
  ∧ Forall (λ a,
      length (Py.format_08X a) = 8%nat
      ∧ Forall (λ c, c ∈ lit "0123456789ABCDEF") (Py.format_08X a)
      ∧ outcome (addr2line E elf_path a)
          = inl (spec_resolution (run_process E (addr2line_cmd E elf_path a))))
      addrs.
Proof.
  intros Helf Hlog Haddrs Hne Hrun. split.
  - rewrite (main_report E argv0 elf_path log_path addrs) by done.
    unfold trace. cbn [snd]. rewrite stdout_of_app, stdout_of_entries.
    erewrite list_fmap_ext; [|intros _ a _; apply stdout_of_entry].
    unfold header, stdout_of. cbn [omap list_omap concat].
    rewrite app_nil_r. by norm_app.
  - apply Forall_forall. intros a Ha.
    pose proof (address_list_member_32bit _ _ _ Haddrs Ha) as H32.
    split; [by apply format_08X_length|].
    split; [apply format_08X_upper; lia|].
    rewrite addr2line_runs; [done | by apply Hrun].
Qed.

Lemma report_format_witness :
  let E := demo_env [lit "fw.elf"; lit "crash.log"] demo_log in
  address_list (read_text E (lit "crash.log"))
    = Some [0x08001234%Z; 0x08000F00%Z]
  ∧ stdout_of (trace (main E (lit "hf_addr2line.py")
                        [lit "fw.elf"; lit "crash.log"]))
    = lit "Found 2 unique addresses. Resolving with addr2line..." ++ nl ++ nl
        ++ lit "0x08001234:" ++ nl
        ++ lit "<addr2line error: addr2line: bad address>" ++ nl ++ nl
        ++ lit "0x08000F00:" ++ nl
        ++ lit "main" ++ nl ++ lit "main.c:12" ++ nl ++ nl.
Proof.
  intros E.
  assert (address_list (read_text E (lit "crash.log"))
            = Some [0x08001234%Z; 0x08000F00%Z]) as H by (by vm_compute).
  split; [exact H|].
  destruct (report_format E (lit "hf_addr2line.py") (lit "fw.elf")
              (lit "crash.log") _ eq_refl eq_refl H) as [Hout _].
  - done.
  - intros a Ha. apply elem_of_cons in Ha as [->|Ha]; [by vm_compute|].
    apply elem_of_cons in Ha as [->|Ha]; [by vm_compute|].
    by apply elem_of_nil in Ha.
  - rewrite Hout. by vm_compute.
Defined.

(** C4, as stated, fails on the count: a log with one match prints the
    number 2 in its header, the number of addresses, not of matches. *)
Lemma header_counts_addresses_not_matches :
  let E := demo_env [lit "fw.elf"; lit "crash.log"] demo_log in
  let out := stdout_of (trace (main E (lit "hf_addr2line.py")
                                 [lit "fw.elf"; lit "crash.log"])) in
  length (Re.finditer pattern (read_text E (lit "crash.log"))) = 1%nat
  ∧ (∃ rest, out = lit "Found 2 unique addresses." ++ rest)
  ∧ ¬ (∃ rest,
         out = lit "Found "
                 ++ Py.str_nat
                      (length (Re.finditer pattern
                                 (read_text E (lit "crash.log"))))
                 ++ rest).
Proof.
  intros E out. split; [by vm_compute|]. split.
  - eexists. vm_compute. reflexivity.
  - intros [rest Hrest]. vm_compute in Hrest. discriminate Hrest.
Qed.

(** C5. When the resolver ends with a non-zero exit status for an
    address A of the AddressList, the result for A is the bracketed
    marker around the trimmed output, the run goes on to exit status 0,
    the trace holds the entry of every address in AddressList order, and
    an address B after A for which the resolver ends with status 0 is
    resolved and reported with its trimmed output. *)
Theorem resolver_failure_is_local (E : env) (argv0 elf_path log_path : pystr)
    (pre post : list Z) (A : Z) (status : Z) (output : pystr) :
  is_file E elf_path = true → is_file E log_path = true →
  address_list (read_text E log_path) = Some (pre ++ A :: post) →
  resolver_runs E elf_path (pre ++ A :: post) →
  run_process E (addr2line_cmd E elf_path A) = Exited status output →
  status ≠ 0%Z →
  let run := main E argv0 [elf_path; log_path] in
  addr2line E elf_path A
    = (inl (lit "<addr2line error: " ++ Py.strip output ++ lit ">"),
       [EExec (addr2line_cmd E elf_path A)])
  ∧ outcome run = inl 0%Z
  ∧ trace run
      = [EIsFile elf_path; EIsFile log_path; ERead log_path;
         EStdout (header (length (pre ++ A :: post)) ++ nl)]
        ++ concat (spec_report_entry E elf_path <$> pre)
        ++ spec_report_entry E elf_path A
        ++ concat (spec_report_entry E elf_path <$> post)
  ∧ stdout_of (spec_report_entry E elf_path A)
      = lit "0x" ++ Py.format_08X A ++ lit ":" ++ nl
          ++ lit "<addr2line error: " ++ Py.strip output ++ lit ">"
          ++ nl ++ nl
  ∧ (∀ B outB,
       B ∈ post →
       run_process E (addr2line_cmd E elf_path B) = Exited 0 outB →
       addr2line E elf_path B
         = (inl (Py.strip outB), [EExec (addr2line_cmd E elf_path B)])
       ∧ EExec (addr2line_cmd E elf_path B) ∈ trace run
       ∧ stdout_of (spec_report_entry E elf_path B)
           = lit "0x" ++ Py.format_08X B ++ lit ":" ++ nl
               ++ Py.strip outB ++ nl ++ nl).
Proof.
  intros Helf Hlog Haddrs Hrun HA Hstatus run.
  assert (spec_resolution (run_process E (addr2line_cmd E elf_path A))
          = lit "<addr2line error: " ++ Py.strip output ++ lit ">") as HresA.
  { rewrite HA. cbn. by destruct (Z.eqb_spec status 0). }
  assert (trace run
      = [EIsFile elf_path; EIsFile log_path; ERead log_path;
         EStdout (header (length (pre ++ A :: post)) ++ nl)]
        ++ concat (spec_report_entry E elf_path <$> pre)
        ++ spec_report_entry E elf_path A
        ++ concat (spec_report_entry E elf_path <$> post)) as Htrace.
  { subst run. rewrite (main_report E argv0 _ _ (pre ++ A :: post));
      [|done|done|done|by destruct pre|done].
    unfold trace. cbn [snd]. by rewrite fmap_app, concat_app. }
  split.
  { rewrite addr2line_runs by (rewrite HA; done). by rewrite HresA. }
  split.
  { subst run. rewrite (main_report E argv0 _ _ (pre ++ A :: post));
      [done|done|done|done|by destruct pre|done]. }
  split; [exact Htrace|]. split.
  { rewrite stdout_of_entry, HresA. by norm_app. }
  intros B outB HB HrunB. split; [|split].
  - rewrite addr2line_runs by (rewrite HrunB; done). by rewrite HrunB.
  - rewrite Htrace. apply elem_of_app. right. apply elem_of_app. right.
    apply elem_of_app. right.
    apply (elem_of_concat_2 _ (spec_report_entry E elf_path B)).
    + unfold spec_report_entry. apply elem_of_cons. right.
      apply elem_of_cons. by left.
    + by apply list_elem_of_fmap_2.
  - rewrite stdout_of_entry, HrunB. by norm_app.
Qed.

Lemma resolver_failure_is_local_witness :
  let E := demo_env [lit "fw.elf"; lit "crash.log"] demo_log in
  let run := main E (lit "hf_addr2line.py") [lit "fw.elf"; lit "crash.log"] in
  address_list (read_text E (lit "crash.log"))
    = Some ([] ++ 0x08001234%Z :: [0x08000F00%Z])
  ∧ run_process E (addr2line_cmd E (lit "fw.elf") 0x08001234)
    = Exited 1 (lit "addr2line: bad address" ++ nl)
  ∧ outcome run = inl 0%Z
  ∧ outcome (addr2line E (lit "fw.elf") 0x08000F00)
    = inl (lit "main" ++ nl ++ lit "main.c:12")
  ∧ EExec (addr2line_cmd E (lit "fw.elf") 0x08000F00) ∈ trace run.
Proof.
  intros E run.
  assert (address_list (read_text E (lit "crash.log"))
            = Some ([] ++ 0x08001234%Z :: [0x08000F00%Z])) as H
    by (by vm_compute).
  assert (run_process E (addr2line_cmd E (lit "fw.elf") 0x08001234)
            = Exited 1 (lit "addr2line: bad address" ++ nl)) as HA
    by (by vm_compute).
  split; [exact H|]. split; [exact HA|].
  destruct (resolver_failure_is_local E (lit "hf_addr2line.py") (lit "fw.elf")
              (lit "crash.log") [] [0x08000F00%Z] 0x08001234%Z 1%Z
              (lit "addr2line: bad address" ++ nl)
              eq_refl eq_refl H) as (_ & Ho & _ & _ & HB).
  - intros a Ha. apply elem_of_cons in Ha as [->|Ha]; [by vm_compute|].
    apply elem_of_cons in Ha as [->|Ha]; [by vm_compute|].
    by apply elem_of_nil in Ha.
  - exact HA.
  - done.
  - split; [exact Ho|].
    destruct (HB 0x08000F00%Z (lit "main" ++ nl ++ lit "main.c:12" ++ nl))
      as (HrB & HinB & _).
    + apply elem_of_cons. by left.
    + by vm_compute.
    + split; [|exact HinB]. unfold outcome. rewrite HrB. by vm_compute.
Defined.

(** * Further properties of the code *)

(** ** Every crash record is found *)

Lemma occurrence_shape pc_hex lr_hex s rest :
  occurrence pc_hex lr_hex s rest →
  ∃ body, s = 72 :: body ++ rest ∧ Forall (λ c, c ≠ 72) body.
Proof.
  intros (ws1 & ws2 & -> & _ & Hws1 & _ & Hws2 & _ & Hpc & _ & Hlr).
  assert (∀ l, Forall (λ c, Py.isspace c = true) l → Forall (λ c, c ≠ 72) l)
    as Hsp by (intros l Hl; eapply Forall_impl; [exact Hl|]; by intros c Hc ->).
  assert (∀ l, Forall (λ c, Py.ishex c = true) l → Forall (λ c, c ≠ 72) l)
    as Hhx by (intros l Hl; eapply Forall_impl; [exact Hl|]; by intros c Hc ->).
  exists (lit "F_ADDR" ++ ws1 ++ lit "PC=0x" ++ pc_hex ++ ws2
            ++ lit "LR=0x" ++ lr_hex).
  split; [by rewrite <- !app_assoc|].
  repeat (apply Forall_app; split); auto; by vm_compute; repeat constructor.
Qed.

Lemma occurrence_extend pc_hex lr_hex s rest t :
  occurrence pc_hex lr_hex s rest →
  occurrence pc_hex lr_hex (s ++ t) (rest ++ t).
Proof.
  intros (ws1 & ws2 & -> & H). exists ws1, ws2. split; [|done].
  by rewrite <- !app_assoc.
Qed.

Lemma finditer_pattern_complete_aux n s pre post pc_hex lr_hex rest :
  (length s ≤ n)%nat → s = pre ++ post → occurrence pc_hex lr_hex post rest →
  [pc_hex; lr_hex] ∈ Re.finditer pattern s.
Proof.
  revert s pre. induction n as [|n IH]; intros s pre Hn -> Hocc.
  { destruct (occurrence_shape _ _ _ _ Hocc) as (body & -> & _).
    rewrite length_app in Hn. simpl in Hn. lia. }
  rewrite finditer_pattern_unfold. destruct pre as [|c pre].
  - cbn [app]. pose proof (match_here_pattern_complete _ _ _ _ Hocc) as Hm.
    destruct post as [|c post].
    { by destruct (occurrence_shape _ _ _ _ Hocc) as (body & ? & _). }
    rewrite Hm. by left.
  - cbn [app]. destruct (Re.match_here pattern (c :: pre ++ post))
      as [[gs r]|] eqn:Hm.
    + right. pose proof (pattern_nonempty _ _ _ Hm) as Hlt.
      apply match_here_pattern_sound in Hm as (pc' & lr' & _ & Hocc').
      destruct (occurrence_shape _ _ _ _ Hocc') as (body & Heq & Hbody).
      destruct (occurrence_shape _ _ _ _ Hocc) as (body0 & -> & _).
      injection Heq as -> Heq.
      assert (∃ k, r = k ++ 72 :: body0 ++ rest) as [k ->].
      { apply app_eq_inv in Heq as [(k & -> & ->)|(k & -> & Hk)]; [by exists k|].
        destruct k as [|c' k]; [exists []; by simpl in Hk|].
        injection Hk as <- _. apply Forall_app in Hbody as [_ Hbody].
        by apply Forall_cons in Hbody as [? _]. }
      apply (IH _ k); [simpl in *; lia | done |].
      destruct Hocc as (ws1 & ws2 & Hs & H). exists ws1, ws2. by split.
    + apply (IH _ pre); [simpl in *; lia | done | done].
Qed.

Lemma finditer_pattern_complete s pre post pc_hex lr_hex rest :
  s = pre ++ post → occurrence pc_hex lr_hex post rest →
  [pc_hex; lr_hex] ∈ Re.finditer pattern s.
Proof. by apply (finditer_pattern_complete_aux (length s)). Qed.

(** X1. [finditer] yields exactly the crash records of the text: a pair
    of fields is among its matches if and only if the text holds, at
    some place, the token, blanks, [PC=0x] and that 8-digit field,
    blanks, [LR=0x] and that 8-digit field.  No record is lost to an
    earlier match, since two records cannot overlap. *)
Theorem finditer_finds_every_record (log_text pc_hex lr_hex : pystr) :
  [pc_hex; lr_hex] ∈ Re.finditer pattern log_text
  ↔ ∃ pre post rest,
      log_text = pre ++ post ∧ occurrence pc_hex lr_hex post rest.
Proof.
  split.
  - intros (pre & pc & lr & post & rest & [= <- <-] & -> & Hocc)%finditer_pattern_sound.
    by exists pre, post, rest.
  - intros (pre & post & rest & -> & Hocc).
    by eapply finditer_pattern_complete.
Qed.

(** X2. The values of the AddressList are exactly the numbers spelled by
    the PC and LR fields of the crash records of the log. *)
Theorem address_list_values (log_text : pystr) (addrs : list Z) (a : Z) :
  address_list log_text = Some addrs →
  a ∈ addrs
  ↔ ∃ pre post rest pc_hex lr_hex,
      log_text = pre ++ post ∧ occurrence pc_hex lr_hex post rest
      ∧ (Py.int16 pc_hex = Some a ∨ Py.int16 lr_hex = Some a).
Proof.
  rewrite address_list_spec. intros [= <-].
  rewrite first_occurrences_elem_of. unfold spec_working_sequence.
  rewrite list_elem_of_bind. split.
  - intros (m & Ha & Hm).
    apply finditer_pattern_sound in Hm
      as (pre & pc & lr & post & rest & -> & -> & Hocc).
    exists pre, post, rest, pc, lr. split; [done|]. split; [done|].
    destruct Hocc as (ws1 & ws2 & _ & _ & _ & _ & _ & Hl1 & Hpc & Hl2 & Hlr).
    destruct (hex_field_int16 pc) as [-> _]; [done|].
    destruct (hex_field_int16 lr) as [-> _]; [done|].
    apply elem_of_cons in Ha as [->|Ha]; [by left|].
    apply list_elem_of_singleton in Ha as ->. by right.
  - intros (pre & post & rest & pc & lr & -> & Hocc & Ha).
    exists [pc; lr]. split; [|by eapply finditer_pattern_complete].
    destruct Hocc as (ws1 & ws2 & _ & _ & _ & _ & _ & Hl1 & Hpc & Hl2 & Hlr).
    destruct (hex_field_int16 pc) as [Hv1 _]; [done|].
    destruct (hex_field_int16 lr) as [Hv2 _]; [done|].
    rewrite Hv1, Hv2 in Ha. rewrite !elem_of_cons.
    destruct Ha as [[= <-]|[= <-]]; tauto.
Qed.

Lemma address_list_values_witness :
  address_list demo_log = Some [0x08001234%Z; 0x08000F00%Z]
  ∧ ∃ pre post rest pc_hex lr_hex,
      demo_log = pre ++ post ∧ occurrence pc_hex lr_hex post rest
      ∧ (Py.int16 pc_hex = Some 0x08000F00%Z
         ∨ Py.int16 lr_hex = Some 0x08000F00%Z).
Proof.
  assert (address_list demo_log = Some [0x08001234%Z; 0x08000F00%Z]) as H
    by (by vm_compute).
  split; [exact H|].
  apply (address_list_values demo_log _ 0x08000F00%Z H).
  apply elem_of_cons. right. apply elem_of_cons. by left.
Defined.

(** ** Growing logs *)

Lemma finditer_no_token s :
  Forall (λ c, c ≠ 72) s → Re.finditer pattern s = [].
Proof.
  intros Hs. destruct (Re.finditer pattern s) as [|m ms] eqn:Hf; [done|].
  assert (m ∈ Re.finditer pattern s) as Hm by (rewrite Hf; by left).
  apply finditer_pattern_sound in Hm
    as (pre & pc & lr & post & rest & _ & -> & Hocc).
  destruct (occurrence_shape _ _ _ _ Hocc) as (body & -> & _).
  apply Forall_app in Hs as [_ Hs]. by apply Forall_cons in Hs as [? _].
Qed.

Lemma finditer_app_prefix_aux n s1 s2 :
  (length s1 ≤ n)%nat →
  Re.finditer pattern s1 `prefix_of` Re.finditer pattern (s1 ++ s2).
Proof.
  revert s1. induction n as [|n IH]; intros s1 Hn.
  { destruct s1; [apply prefix_nil | simpl in Hn; lia]. }
  destruct s1 as [|c s1]; [apply prefix_nil|].
  rewrite (finditer_pattern_unfold (c :: s1)),
    (finditer_pattern_unfold ((c :: s1) ++ s2)). cbn [app].
  destruct (Re.match_here pattern (c :: s1)) as [[gs r]|] eqn:Hm.
  - pose proof (pattern_nonempty _ _ _ Hm) as Hlt.
    apply match_here_pattern_sound in Hm as (pc & lr & -> & Hocc).
    apply (occurrence_extend _ _ _ _ s2), match_here_pattern_complete in Hocc.
    cbn [app] in Hocc. rewrite Hocc. apply prefix_cons, IH.
    simpl in *; lia.
  - destruct (Re.match_here pattern (c :: s1 ++ s2)) as [[gs r]|] eqn:Hm2;
      [|apply IH; simpl in *; lia].
    rewrite finditer_no_token; [apply prefix_nil|].
    apply match_here_pattern_sound in Hm2 as (pc & lr & -> & Hocc).
    destruct (occurrence_shape _ _ _ _ Hocc) as (body & [= -> Heq] & Hbody).
    apply app_eq_inv in Heq as [(k & -> & ->)|(k & -> & _)].
    + exfalso. destruct Hocc as (ws1 & ws2 & Heq & H).
      rewrite !app_assoc in Heq.
      apply (app_inv_tail s2 (72 :: body ++ k)) in Heq.
      assert (occurrence pc lr (72 :: body ++ k) k) as Hocc1.
      { exists ws1, ws2. split; [|done]. by rewrite Heq, <- !app_assoc. }
      apply match_here_pattern_complete in Hocc1. congruence.
    + by apply Forall_app in Hbody as [? _].
Qed.

(** X3. Text added at the end of a log only adds matches at the end:
    the matches of a log are the first matches of every longer log, and
    so the AddressList of a log is the beginning of the AddressList of
    every log that continues it. *)
Theorem address_list_grows (log_text more : pystr) :
  Re.finditer pattern log_text `prefix_of` Re.finditer pattern (log_text ++ more)
  ∧ ∃ addrs new_addrs,
      address_list log_text = Some addrs
      ∧ address_list (log_text ++ more) = Some (addrs ++ new_addrs)
      ∧ Forall (λ a, a ∉ addrs) new_addrs.
Proof.
  pose proof (finditer_app_prefix_aux (length log_text) log_text more
                (Nat.le_refl _)) as Hpre.
  split; [exact Hpre|]. destruct Hpre as [ms Hms].
  rewrite !address_list_spec, Hms. unfold spec_working_sequence.
  rewrite bind_app, first_occurrences_app.
  eexists _, _. split; [done|]. split; [done|].
  apply Forall_forall. intros a [Ha _]%list_elem_of_filter.
  by rewrite first_occurrences_elem_of.
Qed.

(** ** Runs that stop early *)

Lemma report_one_aborts E elf_path a :
  run_process E (addr2line_cmd E elf_path a) = LaunchFailed →
  report_one E elf_path a = (inr OSError, spec_aborted_entry E elf_path a).
Proof.
  intros Hrun. unfold report_one, addr2line, check_output, spec_aborted_entry.
  rewrite Hrun. cbn. by rewrite <- !app_assoc.
Qed.

Lemma for_each_aborts E elf_path pre A post :
  resolver_runs E elf_path pre →
  run_process E (addr2line_cmd E elf_path A) = LaunchFailed →
  for_each (pre ++ A :: post) (report_one E elf_path)
    = (inr OSError,
       concat (spec_report_entry E elf_path <$> pre)
         ++ spec_aborted_entry E elf_path A).
Proof.
  intros Hpre HA. induction pre as [|a pre IH]; cbn [for_each app].
  - by rewrite report_one_aborts.
  - rewrite report_one_runs by (apply Hpre; left).
    rewrite IH by (intros b Hb; apply Hpre; by right). done.
Qed.

Lemma first_launch_failure E elf_path addrs :
  resolver_runs E elf_path addrs
  ∨ ∃ pre A post,
      addrs = pre ++ A :: post ∧ resolver_runs E elf_path pre
      ∧ run_process E (addr2line_cmd E elf_path A) = LaunchFailed.
Proof.
  induction addrs as [|a addrs IH].
  { left. by intros a ?%elem_of_nil. }
  destruct (run_process E (addr2line_cmd E elf_path a)) as [st out|] eqn:Ha.
  - destruct IH as [Hrun|(pre & A & post & -> & Hpre & HA)].
    + left. intros b [->|Hb]%elem_of_cons; [by rewrite Ha | by apply Hrun].
    + right. exists (a :: pre), A, post. split; [done|]. split; [|done].
      intros b [->|Hb]%elem_of_cons; [by rewrite Ha | by apply Hpre].
  - right. exists [], a, addrs. split; [done|]. split; [|done].
    by intros b ?%elem_of_nil.
Qed.

Lemma main_aborts E argv0 elf_path log_path pre A post :
  is_file E elf_path = true → is_file E log_path = true →
  address_list (read_text E log_path) = Some (pre ++ A :: post) →
  resolver_runs E elf_path pre →
  run_process E (addr2line_cmd E elf_path A) = LaunchFailed →
  main E argv0 [elf_path; log_path]
    = (inr OSError,
       [EIsFile elf_path; EIsFile log_path; ERead log_path;
        EStdout (header (length (pre ++ A :: post)) ++ nl)]
       ++ concat (spec_report_entry E elf_path <$> pre)
       ++ spec_aborted_entry E elf_path A).
Proof.
  intros Helf Hlog Haddrs Hpre HA. unfold main, path_is_file, path_read_text.
  cbn. rewrite Helf. cbn. rewrite Hlog. cbn.
  unfold address_list in Haddrs.
  destruct (extract_addrs (read_text E log_path)) as [addrs'|]; [|done].
  injection Haddrs as Haddrs. rewrite Haddrs.
  destruct (pre ++ A :: post) as [|a addrs] eqn:Heq; [by destruct pre|].
  rewrite <- Heq, for_each_aborts by done. done.
Qed.

Lemma main_cases E argv0 args : run_case E argv0 args.
Proof.
  destruct (decide (length args = 2%nat)) as [Hlen|Hlen];
    [|by apply RunUsage; [|apply main_usage]].
  destruct args as [|elf_path [|log_path [|x args]]]; try done. clear Hlen.
  destruct (is_file E elf_path) eqn:Helf;
    [|by eapply RunElfMissing; [| |apply main_elf_missing]].
  destruct (is_file E log_path) eqn:Hlog;
    [|by eapply RunLogMissing; [| | |apply main_log_missing]].
  pose proof (address_list_spec (read_text E log_path)) as Haddrs.
  destruct (spec_first_occurrences _) as [|a addrs] eqn:Heq.
  { by eapply RunNoAddresses; [| | | |apply main_no_addresses]. }
  rewrite <- Heq in Haddrs.
  destruct (first_launch_failure E elf_path (spec_first_occurrences
              (spec_working_sequence
                 (Re.finditer pattern (read_text E log_path)))))
    as [Hrun|(pre & A & post & Hsplit & Hpre & HA)].
  - eapply RunReport; [done..| |done|by apply main_report; [| | |rewrite Heq|]].
    by rewrite Heq.
  - rewrite Hsplit in Haddrs.
    by eapply RunAborted; [| | | | | |apply main_aborts].
Qed.

Lemma exec_commands_app t1 t2 :
  exec_commands (t1 ++ t2) = exec_commands t1 ++ exec_commands t2.
Proof. unfold exec_commands. apply omap_app. Qed.


Lemma exec_commands_entries E elf_path addrs :
  exec_commands (concat (spec_report_entry E elf_path <$> addrs))
    = addr2line_cmd E elf_path <$> addrs.
Proof.
  induction addrs as [|a addrs IH]; [done|].
  cbn [fmap list_fmap concat]. rewrite exec_commands_app, IH. done.
Qed.

Lemma stderr_of_entries E elf_path addrs :
  stderr_of (concat (spec_report_entry E elf_path <$> addrs)) = [].
Proof.
  induction addrs as [|a addrs IH]; [done|].
  cbn [fmap list_fmap concat]. rewrite stderr_of_app, IH. done.
Qed.

Lemma addr2line_cmd_inj E elf_path a b :
  (0 ≤ a)%Z → (0 ≤ b)%Z →
  addr2line_cmd E elf_path a = addr2line_cmd E elf_path b → a = b.
Proof.
  intros Ha Hb Heq. unfold addr2line_cmd in Heq.
  injection Heq as Heq. try apply app_inv_head in Heq.
  apply (f_equal Py.int16) in Heq.
  rewrite !int16_format_08X in Heq by done. by injection Heq.
Qed.

Lemma address_list_NoDup log_text addrs :
  address_list log_text = Some addrs → NoDup addrs.
Proof.
  rewrite address_list_spec. intros [= <-]. apply first_occurrences_NoDup.
Qed.

(** ** The two other refusals *)

(** X4. With any number of arguments other than two, the run is the
    usage line on the error stream, naming the script as it was called,
    and exit status 1: no path is looked up, no file is read, nothing is
    written to standard output. *)
Theorem usage_error_run (E : env) (argv0 : pystr) (args : list pystr) :
  length args ≠ 2%nat →
  main E argv0 args
    = (inl 1%Z,
       [EStderr (lit "Usage: " ++ argv0 ++ lit " <firmware.elf> <log-file>"
                 ++ nl)])
  ∧ stdout_of (trace (main E argv0 args)) = []
  ∧ files_read (trace (main E argv0 args)) = []
  ∧ exec_commands (trace (main E argv0 args)) = [].
Proof. intros Hlen. by rewrite main_usage. Qed.

Lemma usage_error_run_witness :
  let E := demo_env [lit "fw.elf"; lit "crash.log"] demo_log in
  main E (lit "hf_addr2line.py") [lit "fw.elf"; lit "crash.log"; lit "extra"]
    = (inl 1%Z,
       [EStderr (lit "Usage: hf_addr2line.py <firmware.elf> <log-file>"
                 ++ nl)]).
Proof.
  intros E.
  destruct (usage_error_run E (lit "hf_addr2line.py")
              [lit "fw.elf"; lit "crash.log"; lit "extra"]) as [H _];
    [done|]. rewrite H. by vm_compute.
Defined.

(** X5. When the ELF path is a regular file and the log path is not,
    the run is the two look-ups and the log diagnostic on the error
    stream, with exit status 1: the log is not read, no address is
    resolved and nothing is written to standard output. *)
Theorem log_missing_run (E : env) (argv0 elf_path log_path : pystr) :
  is_file E elf_path = true → is_file E log_path = false →
  let run := main E argv0 [elf_path; log_path] in
  run = (inl 1%Z,
         [EIsFile elf_path; EIsFile log_path;
          EStderr (lit "Log not found: " ++ str_path E log_path ++ nl)])
  ∧ stdout_of (trace run) = []
  ∧ files_read (trace run) = []
  ∧ exec_commands (trace run) = [].
Proof. intros Helf Hlog run. subst run. by rewrite main_log_missing. Qed.

Lemma log_missing_run_witness :
  let E := demo_env [lit "fw.elf"] demo_log in
  main E (lit "hf_addr2line.py") [lit "fw.elf"; lit "crash.log"]
    = (inl 1%Z,
       [EIsFile (lit "fw.elf"); EIsFile (lit "crash.log");
        EStderr (lit "Log not found: crash.log" ++ nl)]).
Proof.
  intros E.
  destruct (log_missing_run E (lit "hf_addr2line.py") (lit "fw.elf")
              (lit "crash.log") eq_refl eq_refl) as [H _].
  rewrite H. by vm_compute.
Defined.

(** ** A resolver that cannot be started *)

(** X6. When the resolver cannot be started for an address A, and could
    be for the addresses before it, the run ends there with the uncaught
    [OSError]: standard output holds the header, the entries of the
    addresses before A and the address line of A; the resolver was tried
    for these addresses and A only, and for no address after A. *)
Theorem launch_failure_aborts (E : env) (argv0 elf_path log_path : pystr)
    (pre post : list Z) (A : Z) :
  is_file E elf_path = true → is_file E log_path = true →
  address_list (read_text E log_path) = Some (pre ++ A :: post) →
  resolver_runs E elf_path pre →
  run_process E (addr2line_cmd E elf_path A) = LaunchFailed →
  let run := main E argv0 [elf_path; log_path] in
  outcome run = inr OSError
  ∧ stdout_of (trace run)
      = header (length (pre ++ A :: post)) ++ nl
          ++ concat ((λ a, stdout_of (spec_report_entry E elf_path a)) <$> pre)
          ++ lit "0x" ++ Py.format_08X A ++ lit ":" ++ nl
  ∧ stderr_of (trace run) = []
  ∧ exec_commands (trace run) = addr2line_cmd E elf_path <$> (pre ++ [A])
  ∧ (∀ B, B ∈ post → addr2line_cmd E elf_path B ∉ exec_commands (trace run)).
Proof.
  intros Helf Hlog Haddrs Hpre HA run. subst run.
  rewrite (main_aborts E argv0 elf_path log_path pre A post) by done.
  unfold outcome, trace. cbn [fst snd].
  assert (exec_commands
            ([EIsFile elf_path; EIsFile log_path; ERead log_path;
              EStdout (header (length (pre ++ A :: post)) ++ nl)]
             ++ concat (spec_report_entry E elf_path <$> pre)
             ++ spec_aborted_entry E elf_path A)
          = addr2line_cmd E elf_path <$> (pre ++ [A])) as Hexec.
  { rewrite !exec_commands_app, exec_commands_entries, fmap_app. done. }
  split; [done|]. split; [|split; [|split; [exact Hexec|]]].
  - rewrite !stdout_of_app, stdout_of_entries.
    unfold stdout_of at 1 3. cbn [omap list_omap concat spec_aborted_entry].
    rewrite !app_nil_r. by rewrite <- !app_assoc.
  - rewrite !stderr_of_app, stderr_of_entries. done.
  - intros B HB. rewrite Hexec. intros (a & Heq & Ha)%list_elem_of_fmap.
    pose proof (address_list_NoDup _ _ Haddrs) as Hnd.
    assert (∀ x, x ∈ pre ++ A :: post → (0 ≤ x)%Z) as Hpos.
    { intros x Hx. by apply (address_list_member_32bit _ _ _ Haddrs). }
    apply addr2line_cmd_inj in Heq as ->.
    + rewrite (assoc_L (++) pre [A] post : pre ++ A :: post = (pre ++ [A]) ++ post)
        in Hnd.
      apply NoDup_app in Hnd as (_ & Hdisj & _). by apply (Hdisj a).
    + apply Hpos. rewrite elem_of_app. right. by right.
    + apply Hpos. apply elem_of_app in Ha as [?|Ha%list_elem_of_singleton].
      * rewrite elem_of_app. by left.
      * subst. rewrite elem_of_app. right. by left.
Qed.

Lemma launch_failure_aborts_witness :
  let E := offline_env [lit "fw.elf"; lit "crash.log"] demo_log in
  let run := main E (lit "hf_addr2line.py") [lit "fw.elf"; lit "crash.log"] in
  outcome run = inr OSError
  ∧ stdout_of (trace run)
    = lit "Found 2 unique addresses. Resolving with addr2line..." ++ nl ++ nl
        ++ lit "0x08001234:" ++ nl.
Proof.
  intros E run.
  destruct (launch_failure_aborts E (lit "hf_addr2line.py") (lit "fw.elf")
              (lit "crash.log") [] [0x08000F00%Z] 0x08001234%Z eq_refl eq_refl)
    as (Ho & Hs & _).
  - by vm_compute.
  - by intros a ?%elem_of_nil.
  - done.
  - split; [exact Ho|]. unfold run. rewrite Hs. by vm_compute.
Defined.

(** ** Every run *)



Lemma files_read_app t1 t2 :
  files_read (t1 ++ t2) = files_read t1 ++ files_read t2.
Proof. unfold files_read. apply omap_app. Qed.

Lemma files_read_entries E elf_path addrs :
  files_read (concat (spec_report_entry E elf_path <$> addrs)) = [].
Proof.
  induction addrs as [|a addrs IH]; [done|].
  cbn [fmap list_fmap concat]. by rewrite files_read_app, IH.
Qed.

(** ** The address as the report prints it *)

Lemma spec_base16_snoc s c :
  spec_base16 (s ++ [c]) = (spec_base16 s * 16 + spec_digit c)%Z.
Proof.
  induction s as [|a s IH]; [simpl; lia|].
  cbn [app spec_base16]. rewrite IH, length_app, Nat2Z.inj_add. cbn [length].
  rewrite Z.pow_add_r by lia. lia.
Qed.

Lemma upper_hex_digit_spec_digit c :
  Py.ishex c = true → Py.upper_hex_digit (spec_digit c) = ascii_upper c.
Proof.
  intros H. apply ishex_cases in H.
  assert (Hc : c ∈ lit "0123456789abcdefABCDEF").
  { vm_compute lit.
    assert (c = 48 ∨ c = 49 ∨ c = 50 ∨ c = 51 ∨ c = 52 ∨ c = 53 ∨ c = 54
            ∨ c = 55 ∨ c = 56 ∨ c = 57 ∨ c = 97 ∨ c = 98 ∨ c = 99
            ∨ c = 100 ∨ c = 101 ∨ c = 102 ∨ c = 65 ∨ c = 66 ∨ c = 67
            ∨ c = 68 ∨ c = 69 ∨ c = 70) as Hd by lia.
    rewrite !elem_of_cons. tauto. }
  vm_compute lit in Hc.
  repeat (apply elem_of_cons in Hc as [->|Hc]; [by vm_compute|]).
  by apply elem_of_nil in Hc.
Qed.

Lemma hex_digits_of_field s :
  Forall (λ c, Py.ishex c = true) s →
  Py.hex_digits (length s) (spec_base16 s) = ascii_upper <$> s.
Proof.
  induction s as [|c s IH] using rev_ind; [done|].
  intros [Hs [Hc _]%Forall_cons]%Forall_app.
  destruct (hex_digit_spec c Hc) as [_ Hd].
  rewrite length_app, Nat.add_1_r, spec_base16_snoc, fmap_app.
  cbn [Py.hex_digits fmap list_fmap].
  replace ((spec_base16 s * 16 + spec_digit c) / 16)%Z with (spec_base16 s)
    by (apply Z.div_unique with (spec_digit c); lia).
  replace ((spec_base16 s * 16 + spec_digit c) mod 16)%Z with (spec_digit c)
    by (apply Z.mod_unique with (spec_base16 s); lia).
  by rewrite IH, upper_hex_digit_spec_digit.
Qed.

Lemma hex_digits_zero n : Py.hex_digits n 0 = replicate n 48.
Proof.
  induction n as [|n IH]; [done|].
  cbn [Py.hex_digits]. rewrite Z.div_0_l, IH by lia.
  by rewrite replicate_S_end.
Qed.

Lemma hex_digits_pad n w z :
  (0 ≤ z < 16 ^ Z.of_nat w)%Z → (w ≤ n)%nat →
  Py.hex_digits n z = replicate (n - w) 48 ++ Py.hex_digits w z.
Proof.
  revert w z. induction n as [|n IH]; intros w z Hz Hw.
  { by replace w with 0%nat by lia. }
  destruct w as [|w].
  { replace z with 0%Z by (simpl in Hz; lia).
    rewrite hex_digits_zero, Nat.sub_0_r. cbn. by rewrite app_nil_r. }
  cbn [Py.hex_digits]. rewrite Nat2Z.inj_succ, Z.pow_succ_r in Hz by lia.
  assert (0 ≤ z / 16 < 16 ^ Z.of_nat w)%Z as Hq
    by (split; [apply Z.div_pos; lia | apply Z.div_lt_upper_bound; lia]).
  rewrite (IH w (z / 16)%Z Hq) by lia.
  replace (S n - S w)%nat with (n - w)%nat by lia.
  by rewrite <- app_assoc.
Qed.

Lemma format_08X_32bit z :
  (0 ≤ z < 2 ^ 32)%Z → Py.format_08X z = Py.hex_digits 8 z.
Proof.
  intros Hz. pose proof (hex_len_32 z Hz) as Hlen.
  unfold Py.format_08X. destruct (Z.ltb_spec z 0) as [?|_]; [lia|].
  unfold Py.zfill, Py.format_X. rewrite hex_digits_length.
  symmetry. apply hex_digits_pad; [|done].
  split; [lia|]. apply hex_len_bound. lia.
Qed.

(** X10. Reading an 8-digit field of the log in base 16 and writing the
    number with [format(_, '08X')] gives the field back with its letters
    in capitals: the report names each address as the log spells it, up
    to case. *)
Theorem format_of_field (hex : pystr) :
  hex_field hex →
  ∃ a, Py.int16 hex = Some a ∧ Py.format_08X a = ascii_upper <$> hex.
Proof.
  intros Hf. destruct (hex_field_int16 hex Hf) as [Hv Hr].
  exists (spec_base16 hex). split; [done|].
  destruct Hf as [Hl Hs].
  by rewrite format_08X_32bit, <- Hl, hex_digits_of_field.
Qed.

Lemma format_of_field_witness :
  hex_field (lit "0800beef")
  ∧ ∃ a, Py.int16 (lit "0800beef") = Some a
         ∧ Py.format_08X a = lit "0800BEEF".
Proof.
  assert (hex_field (lit "0800beef")) as H
    by (split; [done | by repeat constructor]).
  split; [exact H|].
  destruct (format_of_field (lit "0800beef") H) as (a & Ha & Hfmt).
  exists a. split; [exact Ha|]. rewrite Hfmt. by vm_compute.
Defined.

(** ** The count in the header *)

Lemma working_sequence_length log_text :
  length (spec_working_sequence (Re.finditer pattern log_text))
    = (2 * length (Re.finditer pattern log_text))%nat.
Proof.
  pose proof (finditer_pattern_fields log_text) as Hf.
  induction Hf as [|m ms (pc & lr & -> & _) _ IH]; [done|].
  unfold spec_working_sequence in *. cbn [mbind list_bind].
  rewrite length_app, IH. simpl. lia.
Qed.

(** X11. The number of addresses, which the header prints, is at least
    1 as soon as the log has a match, and at most twice the number of
    matches. *)
Theorem address_count_bounds (log_text : pystr) (addrs : list Z) :
  address_list log_text = Some addrs →
  (length addrs ≤ 2 * length (Re.finditer pattern log_text))%nat
  ∧ (Re.finditer pattern log_text ≠ [] → 1 ≤ length addrs)%nat.
Proof.
  rewrite address_list_spec. intros [= <-]. split.
  - rewrite <- working_sequence_length.
    apply sublist_length, first_occurrences_sublist.
  - pose proof (finditer_pattern_fields log_text) as Hf.
    destruct (Re.finditer pattern log_text) as [|m ms]; [done|]. intros _.
    apply Forall_cons in Hf as [(pc & lr & -> & _) _]. simpl. lia.
Qed.

Lemma address_count_bounds_witness :
  address_list two_spellings_log = Some [0xDEADBEEF%Z]
  ∧ (length [0xDEADBEEF%Z] ≤ 2 * length (Re.finditer pattern two_spellings_log))%nat.
Proof.
  assert (address_list two_spellings_log = Some [0xDEADBEEF%Z]) as H
    by (by vm_compute).
  split; [exact H|].
  by destruct (address_count_bounds two_spellings_log _ H) as [Hle _].
Defined.

(** ** The resolver's text *)

Lemma lstrip_spec s :
  ∃ l, s = l ++ Py.lstrip s ∧ Forall (λ c, Py.isspace c = true) l.
Proof.
  induction s as [|c s (l & IH & Hl)]; [by exists []|].
  simpl. destruct (Py.isspace c) eqn:Hc.
  - exists (c :: l). split; [by rewrite IH at 1 | by constructor].
  - by exists [].
Qed.

Lemma lstrip_head s c t : Py.lstrip s = c :: t → Py.isspace c = false.
Proof.
  induction s as [|a s IH]; [done|]. simpl.
  destruct (Py.isspace a) eqn:Ha; [done|]. by intros [= <- _].
Qed.

Lemma rstrip_spec s :
  ∃ r, s = Py.rstrip s ++ r ∧ Forall (λ c, Py.isspace c = true) r.
Proof.
  destruct (lstrip_spec (reverse s)) as (l & Hs & Hl).
  exists (reverse l). split; [|by apply Forall_reverse].
  unfold Py.rstrip. by rewrite <- reverse_app, <- Hs, reverse_involutive.
Qed.

Lemma rstrip_last s t c : Py.rstrip s = t ++ [c] → Py.isspace c = false.
Proof.
  unfold Py.rstrip. intros H%(f_equal reverse).
  rewrite reverse_involutive, reverse_snoc in H. by eapply lstrip_head.
Qed.

(** X12. The text the report prints for an address is the resolver's
    output without the blanks around it: the output is blanks, the text,
    blanks, and the text neither begins nor ends with a blank.  It is
    printed as it is after exit status 0, and between [<addr2line error: ]
    and [>] after any other exit status. *)
Theorem resolution_is_trimmed (E : env) (elf_path : pystr) (a : Z)
    (status : Z) (output : pystr) :
  run_process E (addr2line_cmd E elf_path a) = Exited status output →
  ∃ l r t,
    output = l ++ r ++ t
    ∧ Forall (λ c, Py.isspace c = true) l
    ∧ Forall (λ c, Py.isspace c = true) t
    ∧ (∀ c r', r = c :: r' → Py.isspace c = false)
    ∧ (∀ r' c, r = r' ++ [c] → Py.isspace c = false)
    ∧ outcome (addr2line E elf_path a)
        = inl (if (status =? 0)%Z then r
               else lit "<addr2line error: " ++ r ++ lit ">").
Proof.
  intros Hrun.
  destruct (lstrip_spec output) as (l & Hout & Hl).
  destruct (rstrip_spec (Py.lstrip output)) as (t & Hls & Ht).
  exists l, (Py.strip output), t. unfold Py.strip.
  split; [by rewrite <- Hls|]. split; [done|]. split; [done|].
  split; [|split; [apply rstrip_last|]].
  - intros c r' Hr. rewrite Hr in Hls. by apply lstrip_head in Hls.
  - rewrite addr2line_runs by (by rewrite Hrun). by rewrite Hrun.
Qed.

Lemma resolution_is_trimmed_witness :
  let E := demo_env [lit "fw.elf"; lit "crash.log"] demo_log in
  let output := lit "main" ++ nl ++ lit "main.c:12" ++ nl in
  run_process E (addr2line_cmd E (lit "fw.elf") 0x08000F00) = Exited 0 output
  ∧ ∃ l r t,
      output = l ++ r ++ t
      ∧ (∀ r' c, r = r' ++ [c] → Py.isspace c = false)
      ∧ outcome (addr2line E (lit "fw.elf") 0x08000F00) = inl r.
Proof.
  intros E output.
  assert (run_process E (addr2line_cmd E (lit "fw.elf") 0x08000F00)
            = Exited 0 output) as H by (by vm_compute).
  split; [exact H|].
  destruct (resolution_is_trimmed E (lit "fw.elf") 0x08000F00%Z 0%Z output H)
    as (l & r & t & Hout & _ & _ & _ & Hlast & Hres).
  by exists l, r, t.
Defined.

(** ** What no run does *)

(** X7. Whatever the environment, [main] returns no other value than 0
    and 1, and the [CalledProcessError] a failing resolver raises never
    leaves [addr2line], nor [main]. *)
Theorem called_process_error_never_escapes (E : env) (argv0 : pystr)
    (args : list pystr) :
  (∀ code, outcome (main E argv0 args) = inl code → code = 0%Z ∨ code = 1%Z)
  ∧ (∀ returncode output,
       outcome (main E argv0 args) ≠ inr (CalledProcessError returncode output))
  ∧ (∀ elf_path a returncode output,
       outcome (addr2line E elf_path a)
         ≠ inr (CalledProcessError returncode output)).
Proof.
  split; [|split].
  - destruct (main_cases E argv0 args)
      as [_ Hrun|? ? _ _ Hrun|? ? _ _ _ Hrun|? ? _ _ _ _ Hrun
         |? ? ? _ _ _ _ _ _ Hrun|? ? ? ? ? _ _ _ _ _ _ Hrun];
      rewrite Hrun; unfold outcome; cbn [fst]; intros code [= <-]; tauto.
  - destruct (main_cases E argv0 args)
      as [_ Hrun|? ? _ _ Hrun|? ? _ _ _ Hrun|? ? _ _ _ _ Hrun
         |? ? ? _ _ _ _ _ _ Hrun|? ? ? ? ? _ _ _ _ _ _ Hrun];
      by rewrite Hrun.
  - intros elf_path a returncode output. unfold addr2line, check_output.
    destruct (run_process E (addr2line_cmd E elf_path a))
      as [status out|]; [|done].
    cbn. by destruct (status =? 0)%Z.
Qed.

(** X9. [main] never writes to both streams: in a run in which it has
    written a diagnostic to the error stream it has written nothing to
    standard output and has started no process.  The only file it ever
    opens is the log path of the command line. *)
Theorem main_never_writes_both_streams (E : env) (argv0 : pystr)
    (args : list pystr) :
  let t := trace (main E argv0 args) in
  (stderr_of t = [] ∨ (stdout_of t = [] ∧ exec_commands t = []))
  ∧ (files_read t = [] ∨ ∃ elf_path log_path,
       args = [elf_path; log_path] ∧ files_read t = [log_path]).
Proof.
  intros t. subst t.
  destruct (main_cases E argv0 args)
    as [Hlen Hrun|elf log -> Helf Hrun|elf log -> Helf Hlog Hrun
       |elf log -> Helf Hlog Haddrs Hrun
       |elf log addrs -> Helf Hlog Haddrs Hne' Hres Hrun
       |elf log pre A post -> Helf Hlog Haddrs Hpre HA Hrun];
    rewrite Hrun; unfold trace; cbn [snd].
  - split; [by right | by left].
  - split; [by right | by left].
  - split; [by right | by left].
  - split; [by right | right; by exists elf, log].
  - split; [left|right; exists elf, log; split; [done|]].
    + by rewrite stderr_of_app, stderr_of_entries.
    + by rewrite files_read_app, files_read_entries.
  - split; [left|right; exists elf, log; split; [done|]].
    + by rewrite !stderr_of_app, stderr_of_entries.
    + by rewrite !files_read_app, files_read_entries.
Qed.

(** ** The exit status of the process *)



